(** * BinUtils: a shallow embedding of [binary.go] and its [Stream] wrapper

    The development follows the layout of the Go package: machine integers
    and their conversions, the primitive codec (free functions over a byte
    slice and an explicit offset), the stateful [Stream], and then the
    properties of each layer. *)

From Stdlib Require Import ZArith List Lia String Bool.
From coqutil Require Import Z.bitblast.
Import ListNotations.
Local Open Scope Z_scope.

(** ** Machine integers

    Go's sized integers are carried by [Z]; every conversion that can lose
    bits is written out.  [int] is the 64-bit [int] of the usual targets
    (amd64, arm64).  Signed overflow wraps in Go, it does not trap. *)

Definition wrap_unsigned (w x : Z) : Z := x mod 2 ^ w.

Definition wrap_signed (w x : Z) : Z :=
  (x + 2 ^ (w - 1)) mod 2 ^ w - 2 ^ (w - 1).

Definition to_byte : Z -> Z := wrap_unsigned 8.
Definition to_uint16 : Z -> Z := wrap_unsigned 16.
Definition to_uint32 : Z -> Z := wrap_unsigned 32.
Definition to_uint64 : Z -> Z := wrap_unsigned 64.
Definition to_int16 : Z -> Z := wrap_signed 16.
Definition to_int32 : Z -> Z := wrap_signed 32.
Definition to_int64 : Z -> Z := wrap_signed 64.
Definition to_int : Z -> Z := wrap_signed 64.

Definition max_int : Z := 2 ^ 63 - 1.
Definition min_int : Z := - 2 ^ 63.

Definition is_byte (x : Z) : Prop := 0 <= x < 2 ^ 8.
Definition is_uint16 (x : Z) : Prop := 0 <= x < 2 ^ 16.
Definition is_uint32 (x : Z) : Prop := 0 <= x < 2 ^ 32.
Definition is_uint64 (x : Z) : Prop := 0 <= x < 2 ^ 64.
Definition is_int16 (x : Z) : Prop := - 2 ^ 15 <= x < 2 ^ 15.
Definition is_int32 (x : Z) : Prop := - 2 ^ 31 <= x < 2 ^ 31.
Definition is_int64 (x : Z) : Prop := - 2 ^ 63 <= x < 2 ^ 63.
Definition is_int (x : Z) : Prop := min_int <= x <= max_int.

(** [len] of a slice, as an [int]. *)
Definition len {A : Type} (l : list A) : Z := Z.of_nat (List.length l).

(** A slice never holds more than [max_int] elements. *)
Definition valid_slice (buffer : list Z) : Prop := len buffer <= max_int.

(** Every element of a [[]byte] is a byte. *)
Definition byte_slice (buffer : list Z) : Prop := Forall is_byte buffer.

(** ** Floating point values

    [math.Float32bits] and [math.Float32frombits] reinterpret the four bytes
    of a [float32] as a [uint32] and back (and likewise for [float64]); the
    codec never does arithmetic on a float.  A float is therefore carried by
    its IEEE-754 bit pattern, which distinguishes every NaN payload and both
    infinities. *)

Record float32 : Type := Float32frombits { Float32bits : Z }.
Record float64 : Type := Float64frombits { Float64bits : Z }.

(** ** Errors, as built by [github.com/pkg/errors] *)

Inductive error : Type :=
| errors_New (msg : string)
| errors_Wrap (cause : error) (msg : string).

(** The three errors the primitive layer creates. *)
Definition InsufficientBytes : error := errors_New "Not enough bytes to read".
Definition VarIntTooLarge : error := errors_New "Unsigned varint too big".
Definition VarLongTooLarge : error := errors_New "Unsigned var long too big".

(** ** Outcomes

    A call either returns, or panics at run time (a slice expression out of
    range, a nil pointer dereference).  [OutOfFuel] is the result of a loop
    model that was given too few iterations; the loops of this package are
    shown never to produce it. *)

Inductive outcome (A : Type) : Type :=
| Returns (a : A)
| Panics
| OutOfFuel.
Arguments Returns {A} a.
Arguments Panics {A}.
Arguments OutOfFuel {A}.

Definition bind {A B : Type} (m : outcome A) (k : A -> outcome B) : outcome B :=
  match m with
  | Returns a => k a
  | Panics => Panics
  | OutOfFuel => OutOfFuel
  end.

Notation "x <- m ;; k" := (bind m (fun x => k))
  (at level 61, m at next level, right associativity).
Notation "' pat <- m ;; k" := (bind m (fun x => match x with pat => k end))
  (at level 61, pat pattern, m at next level, right associativity).

(** A read returns the Go pair (value, error) together with the offset it
    leaves behind in [*offset]. *)
Definition reader (A : Type) : Type :=
  list Z -> Z -> outcome (A * option error * Z).

(** ** The primitive codec *)

(** The slice expression [buffer[lo:hi]].  Go panics unless
    [0 <= lo <= hi <= cap(buffer)]; [Read] only evaluates it after checking
    [hi <= len(buffer)], so the capacity never decides. *)
Definition slice (buffer : list Z) (lo hi : Z) : outcome (list Z) :=
  if (0 <=? lo) && (lo <=? hi) && (hi <=? len buffer)
  then Returns (firstn (Z.to_nat (hi - lo)) (skipn (Z.to_nat lo) buffer))
  else Panics.

(** [b[i]] on a slice whose length the preceding [Read] fixed. *)
Definition index (b : list Z) (i : nat) : Z := nth i b 0.

Definition Read (buffer : list Z) (offset length : Z)
  : outcome (list Z * option error * Z) :=
  if len buffer <? to_int (offset + length)
  then Returns ([], Some (errors_New "Not enough bytes to read"), offset)
  else
    b <- slice buffer offset (to_int (offset + length)) ;;
    Returns (b, None, to_int (offset + length)).

Definition Write (buffer : list Z) (v : Z) : list Z := buffer ++ [v].

Definition WriteByte (buffer : list Z) (byte : Z) : list Z := Write buffer byte.

Definition WriteBool (buffer : list Z) (b : bool) : list Z :=
  if b then WriteByte buffer 0x01 else WriteByte buffer 0x00.

Definition ReadBool : reader bool := fun buffer offset =>
  '(out, e, offset) <- Read buffer offset 1 ;;
  match e with
  | Some e => Returns (false, Some (errors_Wrap e "Error reading byte for bool"), offset)
  | None => Returns (negb (index out 0 =? 0x00), None, offset)
  end.

Definition ReadByte : reader Z := fun buffer offset =>
  '(out, e, offset) <- Read buffer offset 1 ;;
  match e with
  | Some e => Returns (0, Some (errors_Wrap e "Error reading byte"), offset)
  | None => Returns (index out 0, None, offset)
  end.

Definition WriteUnsignedByte (buffer : list Z) (unsigned : Z) : list Z :=
  WriteByte buffer (to_byte unsigned).

Definition ReadUnsignedByte : reader Z := fun buffer offset =>
  '(out, e, offset) <- Read buffer offset 1 ;;
  match e with
  | Some e => Returns (0, Some (errors_Wrap e "Error reading unsigned byte"), offset)
  | None => Returns (index out 0, None, offset)
  end.

(** Left shifts of a widened byte, truncated to the operand's width. *)
Definition shl16 (x k : Z) : Z := to_uint16 (Z.shiftl x k).
Definition shl32 (x k : Z) : Z := to_uint32 (Z.shiftl x k).
Definition shl64 (x k : Z) : Z := to_uint64 (Z.shiftl x k).

(** The byte layouts shared by the fixed-width writers: each [Write*] fills
    [b[0..n-1]] from its unsigned value [v] with exactly these shifts. *)
Definition big2 (v : Z) : list Z :=
  [to_byte (Z.shiftr v 8); to_byte v].
Definition big4 (v : Z) : list Z :=
  [to_byte (Z.shiftr v 24); to_byte (Z.shiftr v 16); to_byte (Z.shiftr v 8);
   to_byte v].
Definition big8 (v : Z) : list Z :=
  [to_byte (Z.shiftr v 56); to_byte (Z.shiftr v 48); to_byte (Z.shiftr v 40);
   to_byte (Z.shiftr v 32); to_byte (Z.shiftr v 24); to_byte (Z.shiftr v 16);
   to_byte (Z.shiftr v 8); to_byte v].
Definition little2 (v : Z) : list Z :=
  [to_byte v; to_byte (Z.shiftr v 8)].
Definition little4 (v : Z) : list Z :=
  [to_byte v; to_byte (Z.shiftr v 8); to_byte (Z.shiftr v 16);
   to_byte (Z.shiftr v 24)].
Definition little8 (v : Z) : list Z :=
  [to_byte v; to_byte (Z.shiftr v 8); to_byte (Z.shiftr v 16);
   to_byte (Z.shiftr v 24); to_byte (Z.shiftr v 32); to_byte (Z.shiftr v 40);
   to_byte (Z.shiftr v 48); to_byte (Z.shiftr v 56)].

(** The matching reassembly expressions of the readers. *)
Definition join_big2 (b : list Z) : Z :=
  Z.lor (index b 1) (shl16 (index b 0) 8).
Definition join_big4 (b : list Z) : Z :=
  Z.lor (Z.lor (Z.lor (index b 3) (shl32 (index b 2) 8))
               (shl32 (index b 1) 16))
        (shl32 (index b 0) 24).
Definition join_big8 (b : list Z) : Z :=
  Z.lor (Z.lor (Z.lor (Z.lor (Z.lor (Z.lor (Z.lor
    (index b 7) (shl64 (index b 6) 8)) (shl64 (index b 5) 16))
    (shl64 (index b 4) 24)) (shl64 (index b 3) 32)) (shl64 (index b 2) 40))
    (shl64 (index b 1) 48)) (shl64 (index b 0) 56).
Definition join_little2 (b : list Z) : Z :=
  Z.lor (index b 0) (shl16 (index b 1) 8).
Definition join_little4 (b : list Z) : Z :=
  Z.lor (Z.lor (Z.lor (index b 0) (shl32 (index b 1) 8))
               (shl32 (index b 2) 16))
        (shl32 (index b 3) 24).
Definition join_little8 (b : list Z) : Z :=
  Z.lor (Z.lor (Z.lor (Z.lor (Z.lor (Z.lor (Z.lor
    (index b 0) (shl64 (index b 1) 8)) (shl64 (index b 2) 16))
    (shl64 (index b 3) 24)) (shl64 (index b 4) 32)) (shl64 (index b 5) 40))
    (shl64 (index b 6) 48)) (shl64 (index b 7) 56).

Definition WriteShort (buffer : list Z) (signed : Z) : list Z :=
  let v := to_uint16 signed in buffer ++ big2 v.

Definition ReadShort : reader Z := fun buffer offset =>
  '(b, e, offset) <- Read buffer offset 2 ;;
  match e with
  | Some e => Returns (0, Some (errors_Wrap e "Error reading bytes for short"), offset)
  | None => Returns (to_int16 (join_big2 b), None, offset)
  end.

Definition WriteUnsignedShort (buffer : list Z) (v : Z) : list Z :=
  buffer ++ big2 v.

Definition ReadUnsignedShort : reader Z := fun buffer offset =>
  '(b, e, offset) <- Read buffer offset 2 ;;
  match e with
  | Some e => Returns (0, Some (errors_Wrap e "Error reading bytes for unsigned short"), offset)
  | None => Returns (join_big2 b, None, offset)
  end.

Definition WriteInt (buffer : list Z) (int : Z) : list Z :=
  let v := to_uint32 int in buffer ++ big4 v.

Definition ReadInt : reader Z := fun buffer offset =>
  '(b, e, offset) <- Read buffer offset 4 ;;
  match e with
  | Some e => Returns (0, Some (errors_Wrap e "Error reading bytes for int"), offset)
  | None => Returns (to_int32 (join_big4 b), None, offset)
  end.

Definition WriteUnsignedInt (buffer : list Z) (v : Z) : list Z :=
  buffer ++ big4 v.

Definition ReadUnsignedInt : reader Z := fun buffer offset =>
  '(b, e, offset) <- Read buffer offset 4 ;;
  match e with
  | Some e => Returns (0, Some (errors_Wrap e "Error reading bytes for unsigned int"), offset)
  | None => Returns (join_big4 b, None, offset)
  end.

Definition WriteLong (buffer : list Z) (long : Z) : list Z :=
  let v := to_uint64 long in buffer ++ big8 v.

Definition ReadLong : reader Z := fun buffer offset =>
  '(b, e, offset) <- Read buffer offset 8 ;;
  match e with
  | Some e => Returns (0, Some (errors_Wrap e "Error reading bytes for long"), offset)
  | None => Returns (to_int64 (join_big8 b), None, offset)
  end.

Definition WriteUnsignedLong (buffer : list Z) (v : Z) : list Z :=
  buffer ++ big8 v.

Definition ReadUnsignedLong : reader Z := fun buffer offset =>
  '(b, e, offset) <- Read buffer offset 8 ;;
  match e with
  | Some e => Returns (0, Some (errors_Wrap e "Error reading bytes for unsigned long"), offset)
  | None => Returns (join_big8 b, None, offset)
  end.

Definition WriteFloat (buffer : list Z) (float : float32) : list Z :=
  let v := Float32bits float in buffer ++ big4 v.

Definition ReadFloat : reader float32 := fun buffer offset =>
  '(b, e, offset) <- Read buffer offset 4 ;;
  match e with
  | Some e => Returns (Float32frombits 0, Some (errors_Wrap e "Error reading bytes for float"), offset)
  | None => let out := join_big4 b in Returns (Float32frombits out, None, offset)
  end.

Definition WriteDouble (buffer : list Z) (double : float64) : list Z :=
  let v := Float64bits double in buffer ++ big8 v.

Definition ReadDouble : reader float64 := fun buffer offset =>
  '(b, e, offset) <- Read buffer offset 8 ;;
  match e with
  | Some e => Returns (Float64frombits 0, Some (errors_Wrap e "Error reading bytes for double"), offset)
  | None => let out := join_big8 b in Returns (Float64frombits out, None, offset)
  end.

Definition WriteLittleShort (buffer : list Z) (signed : Z) : list Z :=
  let v := to_uint16 signed in buffer ++ little2 v.

Definition ReadLittleShort : reader Z := fun buffer offset =>
  '(b, e, offset) <- Read buffer offset 2 ;;
  match e with
  | Some e => Returns (0, Some (errors_Wrap e "Error reading bytes for little endian short"), offset)
  | None => Returns (to_int16 (join_little2 b), None, offset)
  end.

Definition WriteLittleUnsignedShort (buffer : list Z) (v : Z) : list Z :=
  buffer ++ little2 v.

Definition ReadLittleUnsignedShort : reader Z := fun buffer offset =>
  '(b, e, offset) <- Read buffer offset 2 ;;
  match e with
  | Some e => Returns (0, Some (errors_Wrap e "Error reading bytes for unsigned little endian short"), offset)
  | None => Returns (join_little2 b, None, offset)
  end.

Definition WriteLittleInt (buffer : list Z) (int : Z) : list Z :=
  let v := to_uint32 int in buffer ++ little4 v.

Definition ReadLittleInt : reader Z := fun buffer offset =>
  '(b, e, offset) <- Read buffer offset 4 ;;
  match e with
  | Some e => Returns (0, Some (errors_Wrap e "Error reading bytes for little endian int"), offset)
  | None => Returns (to_int32 (join_little4 b), None, offset)
  end.

Definition WriteLittleUnsignedInt (buffer : list Z) (v : Z) : list Z :=
  buffer ++ little4 v.

Definition ReadLittleUnsignedInt : reader Z := fun buffer offset =>
  '(b, e, offset) <- Read buffer offset 4 ;;
  match e with
  | Some e => Returns (0, Some (errors_Wrap e "Error reading bytes for unsigned little endian int"), offset)
  | None => Returns (join_little4 b, None, offset)
  end.

Definition WriteLittleLong (buffer : list Z) (long : Z) : list Z :=
  let v := to_uint64 long in buffer ++ little8 v.

Definition ReadLittleLong : reader Z := fun buffer offset =>
  '(b, e, offset) <- Read buffer offset 8 ;;
  match e with
  | Some e => Returns (0, Some (errors_Wrap e "Error reading bytes for little endian long"), offset)
  | None => Returns (to_int64 (join_little8 b), None, offset)
  end.

Definition WriteLittleUnsignedLong (buffer : list Z) (v : Z) : list Z :=
  buffer ++ little8 v.

Definition ReadLittleUnsignedLong : reader Z := fun buffer offset =>
  '(b, e, offset) <- Read buffer offset 8 ;;
  match e with
  | Some e => Returns (0, Some (errors_Wrap e "Error reading bytes for unsigned little endian long"), offset)
  | None => Returns (join_little8 b, None, offset)
  end.

Definition WriteLittleFloat (buffer : list Z) (float : float32) : list Z :=
  let v := Float32bits float in buffer ++ little4 v.

Definition ReadLittleFloat : reader float32 := fun buffer offset =>
  '(b, e, offset) <- Read buffer offset 4 ;;
  match e with
  | Some e => Returns (Float32frombits 0, Some (errors_Wrap e "Error reading bytes for little endian float"), offset)
  | None => let out := join_little4 b in Returns (Float32frombits out, None, offset)
  end.

Definition WriteLittleDouble (buffer : list Z) (double : float64) : list Z :=
  let v := Float64bits double in buffer ++ little8 v.

Definition ReadLittleDouble : reader float64 := fun buffer offset =>
  '(b, e, offset) <- Read buffer offset 8 ;;
  match e with
  | Some e => Returns (Float64frombits 0, Some (errors_Wrap e "Error reading bytes for little endian double"), offset)
  | None => let out := join_little8 b in Returns (Float64frombits out, None, offset)
  end.

(** *** Triads *)

Definition ReadBigTriad : reader Z := fun buffer offset =>
  '(b, e, offset) <- Read buffer offset 3 ;;
  match e with
  | Some e => Returns (0, Some (errors_Wrap e "Error reading bytes for big endian triad"), offset)
  | None =>
      let out :=
        Z.lor (Z.lor (Z.land (index b 2) 0xFF)
                     (shl32 (Z.land (index b 1) 0xFF) 8))
              (shl32 (Z.land (index b 0) 0x0F) 16) in
      Returns (out, None, offset)
  end.

Definition WriteLittleTriad (buffer : list Z) (uint : Z) : list Z :=
  let buffer := Write buffer (to_byte (Z.land uint 0xFF)) in
  let buffer := Write buffer (Z.land (to_byte (Z.shiftr uint 8)) 0xFF) in
  Write buffer (Z.land (to_byte (Z.shiftr uint 16)) 0xFF).

Definition ReadLittleTriad : reader Z := fun buffer offset =>
  '(b, e, offset) <- Read buffer offset 3 ;;
  match e with
  | Some e => Returns (0, Some (errors_Wrap e "Error reading bytes for little endian triad"), offset)
  | None =>
      Returns (Z.lor (Z.lor (Z.land (index b 0) 0xFF)
                            (shl32 (Z.land (index b 1) 0xFF) 8))
                     (shl32 (Z.land (index b 2) 0x0F) 16),
               None, offset)
  end.

Definition WriteBigTriad (buffer : list Z) (uint : Z) : list Z :=
  let buffer := Write buffer (Z.land (to_byte (Z.shiftr uint 16)) 0xFF) in
  let buffer := Write buffer (Z.land (to_byte (Z.shiftr uint 8)) 0xFF) in
  Write buffer (to_byte (Z.land uint 0xFF)).

(** *** Zig-zag *)

Definition toZigZag32 (n : Z) : Z :=
  to_uint32 (Z.lxor (to_int32 (Z.shiftl n 1)) (Z.shiftr n 31)).

Definition fromZigZag32 (n : Z) : Z :=
  Z.lxor (to_int32 (Z.shiftr n 1)) (to_int32 (- to_int32 (Z.land n 1))).

Definition toZigZag64 (n : Z) : Z :=
  to_uint64 (Z.lxor (to_int64 (Z.shiftl n 1)) (Z.shiftr n 63)).

Definition fromZigZag64 (n : Z) : Z :=
  Z.lxor (to_int64 (Z.shiftr n 1)) (to_int64 (- to_int64 (Z.land n 1))).

(** *** Variable-length integers

    The write loop runs while [value & 0xFFFFFF80] is not zero and shifts
    seven bits out per turn; [fuel] bounds the number of loop tests. *)

Fixpoint WriteUnsignedVarInt_loop (fuel : nat) (buffer : list Z) (value : Z)
  : outcome (list Z) :=
  match fuel with
  | O => OutOfFuel
  | S fuel =>
      let x := -128 in
      if negb (Z.land value (to_uint32 x) =? 0)
      then
        let buffer := Write buffer (to_byte (Z.lor (Z.land value 0x7F) 0x80)) in
        WriteUnsignedVarInt_loop fuel buffer (Z.shiftr value 7)
      else Returns (Write buffer (to_byte value))
  end.

Definition WriteUnsignedVarInt (buffer : list Z) (value : Z) : outcome (list Z) :=
  WriteUnsignedVarInt_loop 5 buffer value.

(** The do-while of the reader: one turn per byte, [j] counts the groups
    consumed so far. *)
Fixpoint ReadUnsignedVarInt_loop (fuel : nat) (buffer : list Z)
    (offset result j : Z) : outcome (Z * option error * Z) :=
  match fuel with
  | O => OutOfFuel
  | S fuel =>
      '(b, e, offset) <- Read buffer offset 1 ;;
      match e with
      | Some e =>
          Returns (0, Some (errors_Wrap e "Couldn't get next byte of unsigned varint"), offset)
      | None =>
          let b0 := index b 0 in
          if b0 <? 0
          then Returns (0, Some (errors_New "not enough bytes for unsigned varint"), offset)
          else
            let result := Z.lor result (shl32 (Z.land b0 0x7f) (j * 7)) in
            let j := to_uint32 (j + 1) in
            if j >? 5
            then Returns (0, Some (errors_New "Unsigned varint too big"), offset)
            else if negb (Z.land b0 0x80 =? 0)
                 then ReadUnsignedVarInt_loop fuel buffer offset result j
                 else Returns (result, None, offset)
      end
  end.

Definition ReadUnsignedVarInt : reader Z := fun buffer offset =>
  ReadUnsignedVarInt_loop 6 buffer offset 0 0.

Fixpoint WriteUnsignedVarLong_loop (fuel : nat) (buffer : list Z) (value : Z)
  : outcome (list Z) :=
  match fuel with
  | O => OutOfFuel
  | S fuel =>
      let x := -128 in
      if negb (Z.land value (to_uint64 x) =? 0)
      then
        let buffer := Write buffer (to_byte (Z.lor (Z.land value 0x7F) 0x80)) in
        WriteUnsignedVarLong_loop fuel buffer (Z.shiftr value 7)
      else Returns (Write buffer (to_byte value))
  end.

Definition WriteUnsignedVarLong (buffer : list Z) (value : Z) : outcome (list Z) :=
  WriteUnsignedVarLong_loop 10 buffer value.

Fixpoint ReadUnsignedVarLong_loop (fuel : nat) (buffer : list Z)
    (offset result j : Z) : outcome (Z * option error * Z) :=
  match fuel with
  | O => OutOfFuel
  | S fuel =>
      '(b, e, offset) <- Read buffer offset 1 ;;
      match e with
      | Some e =>
          Returns (0, Some (errors_Wrap e "Error reading unsigned var long"), offset)
      | None =>
          let b0 := index b 0 in
          if b0 <? 0
          then Returns (0, Some (errors_New "Not enough bytes for unsigned var long"), offset)
          else
            let result := Z.lor result (shl64 (Z.land b0 0x7f) (j * 7)) in
            let j := to_uint64 (j + 1) in
            if j >? 10
            then Returns (0, Some (errors_New "Unsigned var long too big"), offset)
            else if negb (Z.land b0 0x80 =? 0)
                 then ReadUnsignedVarLong_loop fuel buffer offset result j
                 else Returns (result, None, offset)
      end
  end.

Definition ReadUnsignedVarLong : reader Z := fun buffer offset =>
  ReadUnsignedVarLong_loop 11 buffer offset 0 0.

Definition WriteVarInt (buffer : list Z) (value : Z) : outcome (list Z) :=
  WriteUnsignedVarInt buffer (toZigZag32 value).

Definition ReadVarInt : reader Z := fun buffer offset =>
  '(u, e, offset) <- ReadUnsignedVarInt buffer offset ;;
  match e with
  | Some e => Returns (0, Some (errors_Wrap e "Error reading varint"), offset)
  | None => Returns (fromZigZag32 u, None, offset)
  end.

Definition WriteVarLong (buffer : list Z) (value : Z) : outcome (list Z) :=
  WriteUnsignedVarLong buffer (toZigZag64 value).

Definition ReadVarLong : reader Z := fun buffer offset =>
  '(u, e, offset) <- ReadUnsignedVarLong buffer offset ;;
  match e with
  | Some e => Returns (0, Some (errors_Wrap e "Error reading var long"), offset)
  | None => Returns (fromZigZag64 u, None, offset)
  end.

(** *** Strings: a Go [string] is its sequence of bytes. *)

Definition WriteString (buffer : list Z) (str : list Z) : outcome (list Z) :=
  buffer <- WriteUnsignedVarInt buffer (to_uint32 (len str)) ;;
  Returns (buffer ++ str).

Definition ReadString : reader (list Z) := fun buffer offset =>
  '(l, e, offset) <- ReadUnsignedVarInt buffer offset ;;
  match e with
  | Some e => Returns ([], Some (errors_Wrap e "Error reading length of string"), offset)
  | None =>
      '(strbytes, e, offset) <- Read buffer offset (to_int l) ;;
      match e with
      | Some e => Returns ([], Some (errors_Wrap e "Error reading the bytes of the string"), offset)
      | None => Returns (strbytes, None, offset)
      end
  end.

(** ** The Stream

    [stream.err] is a pointer to a [streamErr]; [None] is the nil pointer.
    The pointed-to record belongs to its stream alone (no method hands out a
    way to write to it), so it is kept by value.  Its fields are the Go
    fields [err], [offset] and [buf]. *)

Record streamErr : Type := mk_streamErr {
  se_err : option error;
  se_offset : Z;
  se_buf : option (list Z)
}.

Record Stream : Type := mk_Stream {
  Offset : Z;
  Buffer : list Z;
  err : option streamErr
}.

(** A value of the interface type [error] holding a [*streamErr]: it is
    the nil interface only when no dynamic type is stored, whatever the
    pointer inside. *)
Inductive error_iface : Type :=
| nil_iface
| streamErr_iface (p : option streamErr).

Definition iface_is_nil (i : error_iface) : bool :=
  match i with
  | nil_iface => true
  | streamErr_iface _ => false
  end.

(** The test [stream.err != nil] on the pointer. *)
Definition err_not_nil (stream : Stream) : bool :=
  match err stream with
  | Some _ => true
  | None => false
  end.

Definition with_Offset (stream : Stream) (offset : Z) : Stream :=
  mk_Stream offset (Buffer stream) (err stream).

Definition with_Buffer (stream : Stream) (buffer : list Z) : Stream :=
  mk_Stream (Offset stream) buffer (err stream).

Definition NewStream : Stream :=
  mk_Stream 0 [] (Some (mk_streamErr None 0 None)).

Definition NewGetStream (buf : list Z) (offset : Z) : Stream :=
  mk_Stream offset buf (Some (mk_streamErr None 0 (Some buf))).

Definition Error (stream : Stream) : error_iface :=
  streamErr_iface (err stream).

(** [SetError] writes through [stream.err]: a nil pointer panics. *)
Definition SetError (stream : Stream) (e : option error) : outcome Stream :=
  match err stream with
  | None => Panics
  | Some se =>
      Returns (mk_Stream (Offset stream) (Buffer stream)
                 (Some (mk_streamErr e (Offset stream) (se_buf se))))
  end.

Definition GetOffset (stream : Stream) : Z * Stream := (Offset stream, stream).

Definition SetOffset (stream : Stream) (offset : Z) : Stream :=
  with_Offset stream offset.

Definition SetBuffer (stream : Stream) (buffer : list Z) : Stream :=
  with_Buffer stream buffer.

Definition GetBuffer (stream : Stream) : list Z * Stream :=
  (Buffer stream, stream).

Definition Feof (stream : Stream) : bool * Stream :=
  (Offset stream >=? to_int (len (Buffer stream) - 1), stream).

(** The body shared by every getter once it decides to read:
    [b, err := ReadX(&stream.Buffer, &stream.Offset)], then
    [if err != nil { stream.SetError(err) }], then [return b].  The read has
    already moved [stream.Offset] when [SetError] looks at it. *)
Definition get_with {A : Type} (rd : reader A) (stream : Stream)
  : outcome (A * Stream) :=
  '(b, e, offset) <- rd (Buffer stream) (Offset stream) ;;
  let stream := with_Offset stream offset in
  match e with
  | Some e => stream <- SetError stream (Some e) ;; Returns (b, stream)
  | None => Returns (b, stream)
  end.

Definition Get (stream : Stream) (length : Z) : outcome (list Z * Stream) :=
  if err_not_nil stream then Returns ([], stream)
  else
    let length :=
      if length <? 0
      then to_int (to_int (len (Buffer stream) - Offset stream) - 1)
      else length in
    get_with (fun buffer offset => Read buffer offset length) stream.

(** Putters: each hands [&stream.Buffer] to its writer. *)
Definition put_with {A : Type} (wr : list Z -> A -> list Z) (stream : Stream)
    (v : A) : outcome (unit * Stream) :=
  Returns (tt, with_Buffer stream (wr (Buffer stream) v)).

Definition put_with_loop {A : Type} (wr : list Z -> A -> outcome (list Z))
    (stream : Stream) (v : A) : outcome (unit * Stream) :=
  buffer <- wr (Buffer stream) v ;;
  Returns (tt, with_Buffer stream buffer).

Definition PutBool := put_with WriteBool.
Definition GetBool := get_with ReadBool.
Definition PutByte := put_with WriteByte.
Definition GetByte := get_with ReadByte.
Definition PutUnsignedByte := put_with WriteUnsignedByte.
Definition GetUnsignedByte := get_with ReadUnsignedByte.
Definition PutShort := put_with WriteShort.
Definition GetShort := get_with ReadShort.
Definition PutUnsignedShort := put_with WriteUnsignedShort.
Definition GetUnsignedShort := get_with ReadUnsignedShort.
Definition PutInt := put_with WriteInt.
Definition GetInt := get_with ReadInt.
Definition PutUnsignedInt := put_with WriteUnsignedInt.
Definition GetUnsignedInt := get_with ReadUnsignedInt.
Definition PutLong := put_with WriteLong.
Definition GetLong := get_with ReadLong.
Definition PutUnsignedLong := put_with WriteUnsignedLong.
Definition GetUnsignedLong := get_with ReadUnsignedLong.
Definition PutFloat := put_with WriteFloat.
Definition GetFloat := get_with ReadFloat.
Definition PutDouble := put_with WriteDouble.
Definition GetDouble := get_with ReadDouble.

Definition PutVarInt := put_with_loop WriteVarInt.

Definition GetVarInt (stream : Stream) : outcome (Z * Stream) :=
  if err_not_nil stream then Returns (0, stream)
  else get_with ReadVarInt stream.

Definition PutVarLong := put_with_loop WriteVarLong.

Definition GetVarLong (stream : Stream) : outcome (Z * Stream) :=
  if err_not_nil stream then Returns (0, stream)
  else get_with ReadVarLong stream.

Definition PutUnsignedVarInt := put_with_loop WriteUnsignedVarInt.

Definition GetUnsignedVarInt (stream : Stream) : outcome (Z * Stream) :=
  if err_not_nil stream then Returns (0, stream)
  else get_with ReadUnsignedVarInt stream.

Definition PutUnsignedVarLong := put_with_loop WriteUnsignedVarLong.

Definition GetUnsignedVarLong (stream : Stream) : outcome (Z * Stream) :=
  if err_not_nil stream then Returns (0, stream)
  else get_with ReadUnsignedVarLong stream.

Definition PutString (stream : Stream) (v : list Z) : outcome (unit * Stream) :=
  buffer <- WriteUnsignedVarInt (Buffer stream) (to_uint32 (len v)) ;;
  Returns (tt, with_Buffer stream (buffer ++ v)).

Definition GetString (stream : Stream) : outcome (list Z * Stream) :=
  if err_not_nil stream then Returns ([], stream)
  else get_with ReadString stream.

Definition PutLittleShort := put_with WriteLittleShort.
Definition GetLittleShort := get_with ReadLittleShort.
Definition PutLittleUnsignedShort := put_with WriteLittleUnsignedShort.
Definition GetLittleUnsignedShort := get_with ReadLittleUnsignedShort.
Definition PutLittleInt := put_with WriteLittleInt.
Definition GetLittleInt := get_with ReadLittleInt.
Definition PutLittleUnsignedInt := put_with WriteLittleUnsignedInt.
Definition GetLittleUnsignedInt := get_with ReadLittleUnsignedInt.
Definition PutLittleLong := put_with WriteLittleLong.
Definition GetLittleLong := get_with ReadLittleLong.
Definition PutLittleUnsignedLong := put_with WriteLittleUnsignedLong.
Definition GetLittleUnsignedLong := get_with ReadLittleUnsignedLong.
Definition PutLittleFloat := put_with WriteLittleFloat.
Definition GetLittleFloat := get_with ReadLittleFloat.
Definition PutLittleDouble := put_with WriteLittleDouble.
Definition GetLittleDouble := get_with ReadLittleDouble.
Definition PutTriad := put_with WriteBigTriad.
Definition GetTriad := get_with ReadBigTriad.
Definition PutLittleTriad := put_with WriteLittleTriad.
Definition GetLittleTriad := get_with ReadLittleTriad.

Definition PutBytes (stream : Stream) (bytes : list Z) : outcome (unit * Stream) :=
  Returns (tt, with_Buffer stream (Buffer stream ++ bytes)).

Definition PutLengthPrefixedBytes (stream : Stream) (bytes : list Z)
  : outcome (unit * Stream) :=
  '(_, stream) <- PutUnsignedVarInt stream (to_uint32 (len bytes)) ;;
  PutBytes stream bytes.

Definition GetLengthPrefixedBytes (stream : Stream) : outcome (list Z * Stream) :=
  GetString stream.

Definition ResetStream (stream : Stream) : Stream :=
  mk_Stream 0 [] (err stream).


(** ** The fixed-width kinds

    One constructor per writer/reader pair of fixed width, so that a
    property of "every fixed-width kind" is a statement over [Kind]. *)

Inductive Kind : Type :=
| KBool | KByte | KUnsignedByte
| KShort | KUnsignedShort | KInt | KUnsignedInt | KLong | KUnsignedLong
| KFloat | KDouble
| KLittleShort | KLittleUnsignedShort | KLittleInt | KLittleUnsignedInt
| KLittleLong | KLittleUnsignedLong | KLittleFloat | KLittleDouble.

(** The Go type of the value. *)
Definition kind_type (k : Kind) : Type :=
  match k with
  | KBool => bool
  | KFloat | KLittleFloat => float32
  | KDouble | KLittleDouble => float64
  | _ => Z
  end.

(** The values of that Go type. *)
Definition representable (k : Kind) : kind_type k -> Prop :=
  match k return kind_type k -> Prop with
  | KBool => fun _ => True
  | KByte | KUnsignedByte => is_byte
  | KShort | KLittleShort => is_int16
  | KUnsignedShort | KLittleUnsignedShort => is_uint16
  | KInt | KLittleInt => is_int32
  | KUnsignedInt | KLittleUnsignedInt => is_uint32
  | KLong | KLittleLong => is_int64
  | KUnsignedLong | KLittleUnsignedLong => is_uint64
  | KFloat | KLittleFloat => fun f => is_uint32 (Float32bits f)
  | KDouble | KLittleDouble => fun d => is_uint64 (Float64bits d)
  end.

Definition width (k : Kind) : Z :=
  match k with
  | KBool | KByte | KUnsignedByte => 1
  | KShort | KUnsignedShort | KLittleShort | KLittleUnsignedShort => 2
  | KInt | KUnsignedInt | KFloat | KLittleInt | KLittleUnsignedInt
  | KLittleFloat => 4
  | KLong | KUnsignedLong | KDouble | KLittleLong | KLittleUnsignedLong
  | KLittleDouble => 8
  end.

Definition write_kind (k : Kind) : list Z -> kind_type k -> list Z :=
  match k return list Z -> kind_type k -> list Z with
  | KBool => WriteBool
  | KByte => WriteByte
  | KUnsignedByte => WriteUnsignedByte
  | KShort => WriteShort
  | KUnsignedShort => WriteUnsignedShort
  | KInt => WriteInt
  | KUnsignedInt => WriteUnsignedInt
  | KLong => WriteLong
  | KUnsignedLong => WriteUnsignedLong
  | KFloat => WriteFloat
  | KDouble => WriteDouble
  | KLittleShort => WriteLittleShort
  | KLittleUnsignedShort => WriteLittleUnsignedShort
  | KLittleInt => WriteLittleInt
  | KLittleUnsignedInt => WriteLittleUnsignedInt
  | KLittleLong => WriteLittleLong
  | KLittleUnsignedLong => WriteLittleUnsignedLong
  | KLittleFloat => WriteLittleFloat
  | KLittleDouble => WriteLittleDouble
  end.

Definition read_kind (k : Kind) : reader (kind_type k) :=
  match k return reader (kind_type k) with
  | KBool => ReadBool
  | KByte => ReadByte
  | KUnsignedByte => ReadUnsignedByte
  | KShort => ReadShort
  | KUnsignedShort => ReadUnsignedShort
  | KInt => ReadInt
  | KUnsignedInt => ReadUnsignedInt
  | KLong => ReadLong
  | KUnsignedLong => ReadUnsignedLong
  | KFloat => ReadFloat
  | KDouble => ReadDouble
  | KLittleShort => ReadLittleShort
  | KLittleUnsignedShort => ReadLittleUnsignedShort
  | KLittleInt => ReadLittleInt
  | KLittleUnsignedInt => ReadLittleUnsignedInt
  | KLittleLong => ReadLittleLong
  | KLittleUnsignedLong => ReadLittleUnsignedLong
  | KLittleFloat => ReadLittleFloat
  | KLittleDouble => ReadLittleDouble
  end.

(** The continuation bit of a group. *)
Definition continues (b0 : Z) : bool := negb (Z.land b0 0x80 =? 0).

(** A writer's result is [buffer] followed by exactly [n] new bytes. *)
Definition appends (buffer : list Z) (r : outcome (list Z)) (n : Z) : Prop :=
  exists enc, r = Returns (buffer ++ enc) /\ len enc = n.

(** ** Streams a program can hold

    One call of a method of [Stream].  The getters without a guard are all
    [get_with] of some reader and the plain putters [put_with] of some
    writer, so those two rules cover them. *)
Inductive method_call : Stream -> Stream -> Prop :=
| call_get_with {A : Type} (rd : reader A) s b s' :
    get_with rd s = Returns (b, s') -> method_call s s'
| call_put_with {A : Type} (wr : list Z -> A -> list Z) s v s' :
    put_with wr s v = Returns (tt, s') -> method_call s s'
| call_put_with_loop {A : Type} (wr : list Z -> A -> outcome (list Z)) s v s' :
    put_with_loop wr s v = Returns (tt, s') -> method_call s s'
| call_Get s length b s' :
    Get s length = Returns (b, s') -> method_call s s'
| call_GetVarInt s v s' :
    GetVarInt s = Returns (v, s') -> method_call s s'
| call_GetVarLong s v s' :
    GetVarLong s = Returns (v, s') -> method_call s s'
| call_GetUnsignedVarInt s v s' :
    GetUnsignedVarInt s = Returns (v, s') -> method_call s s'
| call_GetUnsignedVarLong s v s' :
    GetUnsignedVarLong s = Returns (v, s') -> method_call s s'
| call_GetString s v s' :
    GetString s = Returns (v, s') -> method_call s s'
| call_GetLengthPrefixedBytes s v s' :
    GetLengthPrefixedBytes s = Returns (v, s') -> method_call s s'
| call_PutString s v s' :
    PutString s v = Returns (tt, s') -> method_call s s'
| call_PutBytes s v s' :
    PutBytes s v = Returns (tt, s') -> method_call s s'
| call_PutLengthPrefixedBytes s v s' :
    PutLengthPrefixedBytes s v = Returns (tt, s') -> method_call s s'
| call_SetError s e s' :
    SetError s e = Returns s' -> method_call s s'
| call_SetOffset s offset : method_call s (SetOffset s offset)
| call_SetBuffer s buffer : method_call s (SetBuffer s buffer)
| call_ResetStream s : method_call s (ResetStream s).

(** The streams obtained from a constructor by any sequence of calls. *)
Inductive constructed : Stream -> Prop :=
| constructed_NewStream : constructed NewStream
| constructed_NewGetStream buf offset : constructed (NewGetStream buf offset)
| constructed_call s s' : constructed s -> method_call s s' -> constructed s'.


(** ** Dispatch over the kinds, for statements about all of them *)

(** The value a reader returns beside an error. *)
Definition zero_value (k : Kind) : kind_type k :=
  match k return kind_type k with
  | KBool => false
  | KFloat | KLittleFloat => Float32frombits 0
  | KDouble | KLittleDouble => Float64frombits 0
  | KByte | KUnsignedByte | KShort | KUnsignedShort | KInt | KUnsignedInt
  | KLong | KUnsignedLong | KLittleShort | KLittleUnsignedShort | KLittleInt
  | KLittleUnsignedInt | KLittleLong | KLittleUnsignedLong => 0
  end.

(** The [Stream] methods of each kind. *)
Definition put_kind (k : Kind) : Stream -> kind_type k -> outcome (unit * Stream) :=
  match k return Stream -> kind_type k -> outcome (unit * Stream) with
  | KBool => PutBool
  | KByte => PutByte
  | KUnsignedByte => PutUnsignedByte
  | KShort => PutShort
  | KUnsignedShort => PutUnsignedShort
  | KInt => PutInt
  | KUnsignedInt => PutUnsignedInt
  | KLong => PutLong
  | KUnsignedLong => PutUnsignedLong
  | KFloat => PutFloat
  | KDouble => PutDouble
  | KLittleShort => PutLittleShort
  | KLittleUnsignedShort => PutLittleUnsignedShort
  | KLittleInt => PutLittleInt
  | KLittleUnsignedInt => PutLittleUnsignedInt
  | KLittleLong => PutLittleLong
  | KLittleUnsignedLong => PutLittleUnsignedLong
  | KLittleFloat => PutLittleFloat
  | KLittleDouble => PutLittleDouble
  end.

Definition get_kind (k : Kind) : Stream -> outcome (kind_type k * Stream) :=
  match k return Stream -> outcome (kind_type k * Stream) with
  | KBool => GetBool
  | KByte => GetByte
  | KUnsignedByte => GetUnsignedByte
  | KShort => GetShort
  | KUnsignedShort => GetUnsignedShort
  | KInt => GetInt
  | KUnsignedInt => GetUnsignedInt
  | KLong => GetLong
  | KUnsignedLong => GetUnsignedLong
  | KFloat => GetFloat
  | KDouble => GetDouble
  | KLittleShort => GetLittleShort
  | KLittleUnsignedShort => GetLittleUnsignedShort
  | KLittleInt => GetLittleInt
  | KLittleUnsignedInt => GetLittleUnsignedInt
  | KLittleLong => GetLittleLong
  | KLittleUnsignedLong => GetLittleUnsignedLong
  | KLittleFloat => GetLittleFloat
  | KLittleDouble => GetLittleDouble
  end.

(** * Properties *)

(** ** Conversions inside their range are the identity *)

Lemma wrap_unsigned_small (w x : Z) :
  0 <= x < 2 ^ w -> wrap_unsigned w x = x.
Proof. intros H. unfold wrap_unsigned. apply Z.mod_small. exact H. Qed.

Lemma wrap_signed_small (w x : Z) :
  0 < w -> - 2 ^ (w - 1) <= x < 2 ^ (w - 1) -> wrap_signed w x = x.
Proof.
  intros Hw H. unfold wrap_signed.
  assert (E : 2 ^ w = 2 * 2 ^ (w - 1)).
  { replace w with (Z.succ (w - 1)) at 1 by lia. apply Z.pow_succ_r. lia. }
  rewrite Z.mod_small; lia.
Qed.

Lemma wrap_signed_unsigned (w x : Z) :
  0 < w -> - 2 ^ (w - 1) <= x < 2 ^ (w - 1) ->
  wrap_signed w (wrap_unsigned w x) = x.
Proof.
  intros Hw H. unfold wrap_signed, wrap_unsigned.
  assert (E : 2 ^ w = 2 * 2 ^ (w - 1)).
  { replace w with (Z.succ (w - 1)) at 1 by lia. apply Z.pow_succ_r. lia. }
  assert (P : 0 < 2 ^ (w - 1)) by (apply Z.pow_pos_nonneg; lia).
  rewrite Z.add_mod_idemp_l by lia.
  rewrite Z.mod_small; lia.
Qed.

Lemma wrap_unsigned_range (w x : Z) : 0 <= w -> 0 <= wrap_unsigned w x < 2 ^ w.
Proof.
  intros Hw. unfold wrap_unsigned. apply Z.mod_pos_bound.
  apply Z.pow_pos_nonneg; lia.
Qed.

Lemma to_int_small (x : Z) : is_int x -> to_int x = x.
Proof.
  unfold is_int, min_int, max_int, to_int. intros H.
  apply wrap_signed_small; [lia|]. change (64 - 1) with 63. lia.
Qed.

Lemma len_nonneg {A : Type} (l : list A) : 0 <= len l.
Proof. unfold len. lia. Qed.

Lemma len_app {A : Type} (l1 l2 : list A) : len (l1 ++ l2) = len l1 + len l2.
Proof. unfold len. rewrite length_app. lia. Qed.

(** ** The generic read *)

(** Everything [Read] can return, with no assumption on its arguments. *)
Lemma Read_inv (buffer : list Z) (offset length : Z) b e offset' :
  Read buffer offset length = Returns (b, e, offset') ->
  (len buffer < to_int (offset + length) /\
   b = [] /\ e = Some InsufficientBytes /\ offset' = offset)
  \/
  (0 <= offset <= offset' /\ offset' <= len buffer /\
   offset' = to_int (offset + length) /\ e = None /\
   b = firstn (Z.to_nat (offset' - offset)) (skipn (Z.to_nat offset) buffer)).
Proof.
  unfold Read, slice.
  destruct (Z.ltb_spec (len buffer) (to_int (offset + length))) as [Hlt | Hge].
  - intros H. inversion H; subst. left. repeat split; auto.
  - destruct (Z.leb_spec 0 offset) as [H0 | H0]; cbn [andb bind];
      [destruct (Z.leb_spec offset (to_int (offset + length))) as [H1 | H1];
       cbn [andb bind];
       [destruct (Z.leb_spec (to_int (offset + length)) (len buffer)) as [H2 | H2];
        cbn [andb bind]|]|];
      intros H; inversion H; subst.
    right. repeat split; auto.
Qed.

(** The contract of [Read] wherever [offset + length] is an [int]. *)
Lemma Read_contract (buffer : list Z) (offset length : Z) :
  0 <= offset <= len buffer -> 0 <= length -> offset + length <= max_int ->
  Read buffer offset length =
    if len buffer <? offset + length
    then Returns ([], Some InsufficientBytes, offset)
    else Returns (firstn (Z.to_nat length) (skipn (Z.to_nat offset) buffer),
                  None, offset + length).
Proof.
  intros Ho Hl Hmax. unfold Read, slice.
  rewrite to_int_small by (unfold is_int, min_int, max_int in *; lia).
  destruct (Z.ltb_spec (len buffer) (offset + length)) as [Hlt | Hge];
    [reflexivity|].
  replace (0 <=? offset) with true by (symmetry; apply Z.leb_le; lia).
  replace (offset <=? offset + length) with true by (symmetry; apply Z.leb_le; lia).
  replace (offset + length <=? len buffer) with true by (symmetry; apply Z.leb_le; lia).
  cbn [andb bind]. replace (offset + length - offset) with length by lia.
  reflexivity.
Qed.

(** When the sum leaves the range of [int], the guard compares against a
    negative number, lets the read through, and the slice expression
    panics. *)
Lemma Read_overflow (buffer : list Z) (offset length : Z) :
  valid_slice buffer -> 0 <= offset <= len buffer -> 0 <= length <= max_int ->
  max_int < offset + length ->
  Read buffer offset length = Panics.
Proof.
  unfold valid_slice, max_int. intros Hv Ho Hl Hov. unfold Read, slice.
  assert (E : to_int (offset + length) = offset + length - 2 ^ 64).
  { unfold to_int, wrap_signed. change (64 - 1) with 63.
    replace (offset + length + 2 ^ 63)
      with ((offset + length - 2 ^ 63) + 1 * 2 ^ 64) by lia.
    rewrite Z.mod_add by lia. rewrite Z.mod_small; lia. }
  rewrite E.
  replace (len buffer <? offset + length - 2 ^ 64) with false
    by (symmetry; apply Z.ltb_ge; lia).
  replace (offset <=? offset + length - 2 ^ 64) with false
    by (symmetry; apply Z.leb_gt; lia).
  rewrite andb_false_r. reflexivity.
Qed.

(** Reading back what was just appended. *)
Lemma Read_appended (buffer enc : list Z) :
  valid_slice (buffer ++ enc) ->
  Read (buffer ++ enc) (len buffer) (len enc) =
    Returns (enc, None, len buffer + len enc).
Proof.
  unfold valid_slice. rewrite len_app. intros Hv.
  pose proof (len_nonneg buffer). pose proof (len_nonneg enc).
  rewrite Read_contract by (rewrite ?len_app; lia).
  rewrite len_app.
  replace (len buffer + len enc <? len buffer + len enc) with false
    by (symmetry; apply Z.ltb_irrefl).
  unfold len. rewrite !Nat2Z.id.
  rewrite skipn_app, skipn_all, Nat.sub_diag. cbn [skipn app].
  rewrite firstn_all. reflexivity.
Qed.


(** ** Splitting a word into bytes and joining it again *)

(** Bit [n] of the byte taken at position [k] and shifted back to it. *)
Lemma testbit_byte_at (w v k n : Z) :
  0 <= k -> k + 8 <= w -> 0 <= n ->
  Z.testbit (wrap_unsigned w (Z.shiftl (to_byte (Z.shiftr v k)) k)) n =
  (k <=? n) && (n <? k + 8) && Z.testbit v n.
Proof.
  intros Hk Hw Hn. unfold to_byte, wrap_unsigned.
  rewrite Z.testbit_mod_pow2 by lia.
  rewrite Z.shiftl_spec by lia.
  destruct (Z.leb_spec k n) as [Hkn | Hkn].
  - rewrite Z.testbit_mod_pow2 by lia.
    rewrite Z.shiftr_spec by lia.
    replace (n - k + k) with n by lia.
    destruct (Z.ltb_spec (n - k) 8), (Z.ltb_spec n (k + 8)), (Z.ltb_spec n w);
      try lia; reflexivity.
  - rewrite (Z.testbit_neg_r _ (n - k)) by lia.
    apply andb_false_r.
Qed.

Lemma testbit_low_byte (v n : Z) :
  0 <= n -> Z.testbit (to_byte v) n = (n <? 8) && Z.testbit v n.
Proof. intros Hn. unfold to_byte, wrap_unsigned. apply Z.testbit_mod_pow2. lia. Qed.

Lemma testbit_small (w v n : Z) :
  0 <= w -> 0 <= v < 2 ^ w -> Z.testbit v n = (n <? w) && Z.testbit v n.
Proof.
  intros Hw Hv. rewrite <- (Z.mod_small v (2 ^ w)) at 1 by exact Hv.
  apply Z.testbit_mod_pow2. exact Hw.
Qed.

Ltac split_cmp :=
  repeat match goal with
         | |- context [?a <=? ?b] =>
             destruct (Z.leb_spec a b); try (exfalso; lia)
         | |- context [?a <? ?b] =>
             destruct (Z.ltb_spec a b); try (exfalso; lia)
         end.

Ltac join_bits w v H :=
  cbv [join_big2 join_big4 join_big8 join_little2 join_little4 join_little8
       big2 big4 big8 little2 little4 little8 index nth shl16 shl32 shl64
       to_uint16 to_uint32 to_uint64];
  apply Z.bits_inj'; intros n Hn;
  rewrite (testbit_small w v n ltac:(lia) H);
  rewrite !Z.lor_spec, !(testbit_byte_at _ v) by lia;
  rewrite testbit_low_byte by lia;
  destruct (Z.testbit v n); rewrite ?andb_false_r; [|reflexivity];
  rewrite ?andb_true_r; split_cmp; reflexivity.

Lemma join_big2_big2 v : is_uint16 v -> join_big2 (big2 v) = v.
Proof. intros H. join_bits 16 v H. Qed.

Lemma join_big4_big4 v : is_uint32 v -> join_big4 (big4 v) = v.
Proof. intros H. join_bits 32 v H. Qed.

Lemma join_big8_big8 v : is_uint64 v -> join_big8 (big8 v) = v.
Proof. intros H. join_bits 64 v H. Qed.

Lemma join_little2_little2 v : is_uint16 v -> join_little2 (little2 v) = v.
Proof. intros H. join_bits 16 v H. Qed.

Lemma join_little4_little4 v : is_uint32 v -> join_little4 (little4 v) = v.
Proof. intros H. join_bits 32 v H. Qed.

Lemma join_little8_little8 v : is_uint64 v -> join_little8 (little8 v) = v.
Proof. intros H. join_bits 64 v H. Qed.


Lemma Read_appended_n (buffer enc : list Z) (n : Z) :
  len enc = n -> valid_slice (buffer ++ enc) ->
  Read (buffer ++ enc) (len buffer) n = Returns (enc, None, len buffer + n).
Proof. intros <-. apply Read_appended. Qed.

Lemma to_int16_to_uint16 v : is_int16 v -> to_int16 (to_uint16 v) = v.
Proof. intros H. apply wrap_signed_unsigned; [lia | exact H]. Qed.

Lemma to_int32_to_uint32 v : is_int32 v -> to_int32 (to_uint32 v) = v.
Proof. intros H. apply wrap_signed_unsigned; [lia | exact H]. Qed.

Lemma to_int64_to_uint64 v : is_int64 v -> to_int64 (to_uint64 v) = v.
Proof. intros H. apply wrap_signed_unsigned; [lia | exact H]. Qed.

Lemma to_uint16_range v : is_uint16 (to_uint16 v).
Proof. apply wrap_unsigned_range. lia. Qed.

Lemma to_uint32_range v : is_uint32 (to_uint32 v).
Proof. apply wrap_unsigned_range. lia. Qed.

Lemma to_uint64_range v : is_uint64 (to_uint64 v).
Proof. apply wrap_unsigned_range. lia. Qed.

Lemma to_byte_small v : is_byte v -> to_byte v = v.
Proof. apply wrap_unsigned_small. Qed.

Create HintDb words.
Create Rewrite HintDb words.

#[local] Hint Resolve to_uint16_range to_uint32_range to_uint64_range : words.
#[local] Hint Rewrite join_big2_big2 join_big4_big4 join_big8_big8
  join_little2_little2 join_little4_little4 join_little8_little8
  to_int16_to_uint16 to_int32_to_uint32 to_int64_to_uint64
  using (auto with words) : words.

(** One step of every round trip: the reader's [Read] returns exactly the
    bytes the writer appended. *)
Ltac read_back :=
  match goal with
  | Hv : valid_slice (?buffer ++ ?enc)
    |- context [Read (?buffer ++ ?enc) (len ?buffer) ?n] =>
      rewrite (Read_appended_n buffer enc n eq_refl Hv); cbn [bind]
  end.

(** C1.  For every fixed-width kind, big- or little-endian, writing a
    representable value [v] at the end of a buffer and reading at the offset
    where its encoding starts gives back exactly [v] with no error, and
    leaves the offset just past the encoding.  This covers 0, -1 and the
    extremes of each width; a float or double comes back with the same bit
    pattern, NaN payloads and infinities included. *)
Theorem fixed_width_round_trip (k : Kind) (buffer : list Z) (v : kind_type k) :
  representable k v ->
  valid_slice (write_kind k buffer v) ->
  read_kind k (write_kind k buffer v) (len buffer) =
    Returns (v, None, len buffer + width k).
Proof.
  destruct k; cbn [representable write_kind read_kind width kind_type] in *;
    intros Hr Hv.
  - (* bool *)
    destruct v; cbv [WriteBool WriteByte Write ReadBool] in *; read_back;
      reflexivity.
  - cbv [WriteByte Write ReadByte] in *. read_back. reflexivity.
  - cbv [WriteUnsignedByte WriteByte Write ReadUnsignedByte] in *.
    rewrite to_byte_small in * by exact Hr. read_back. reflexivity.
  - cbv [WriteShort ReadShort] in *. read_back.
    autorewrite with words. reflexivity.
  - cbv [WriteUnsignedShort ReadUnsignedShort] in *. read_back.
    autorewrite with words. reflexivity.
  - cbv [WriteInt ReadInt] in *. read_back.
    autorewrite with words. reflexivity.
  - cbv [WriteUnsignedInt ReadUnsignedInt] in *. read_back.
    autorewrite with words. reflexivity.
  - cbv [WriteLong ReadLong] in *. read_back.
    autorewrite with words. reflexivity.
  - cbv [WriteUnsignedLong ReadUnsignedLong] in *. read_back.
    autorewrite with words. reflexivity.
  - cbv [WriteFloat ReadFloat] in *. read_back.
    autorewrite with words. destruct v; reflexivity.
  - cbv [WriteDouble ReadDouble] in *. read_back.
    autorewrite with words. destruct v; reflexivity.
  - cbv [WriteLittleShort ReadLittleShort] in *. read_back.
    autorewrite with words. reflexivity.
  - cbv [WriteLittleUnsignedShort ReadLittleUnsignedShort] in *. read_back.
    autorewrite with words. reflexivity.
  - cbv [WriteLittleInt ReadLittleInt] in *. read_back.
    autorewrite with words. reflexivity.
  - cbv [WriteLittleUnsignedInt ReadLittleUnsignedInt] in *. read_back.
    autorewrite with words. reflexivity.
  - cbv [WriteLittleLong ReadLittleLong] in *. read_back.
    autorewrite with words. reflexivity.
  - cbv [WriteLittleUnsignedLong ReadLittleUnsignedLong] in *. read_back.
    autorewrite with words. reflexivity.
  - cbv [WriteLittleFloat ReadLittleFloat] in *. read_back.
    autorewrite with words. destruct v; reflexivity.
  - cbv [WriteLittleDouble ReadLittleDouble] in *. read_back.
    autorewrite with words. destruct v; reflexivity.
Qed.

(** Boundary values: the least int64 little-endian, -1 as a big-endian
    int, the greatest uint64, a NaN with a payload and an infinity. *)
Lemma fixed_width_round_trip_witness :
  (representable KLittleLong (- 2 ^ 63) /\
   valid_slice (write_kind KLittleLong [9] (- 2 ^ 63)) /\
   ReadLittleLong (WriteLittleLong [9] (- 2 ^ 63)) 1 =
     Returns (- 2 ^ 63, None, 9)) /\
  ReadInt (WriteInt [] (-1)) 0 = Returns (-1, None, 4) /\
  ReadUnsignedLong (WriteUnsignedLong [] (2 ^ 64 - 1)) 0 =
    Returns (2 ^ 64 - 1, None, 8) /\
  ReadFloat (WriteFloat [] (Float32frombits 0x7FC00001)) 0 =
    Returns (Float32frombits 0x7FC00001, None, 4) /\
  ReadLittleDouble (WriteLittleDouble [] (Float64frombits 0xFFF0000000000000)) 0 =
    Returns (Float64frombits 0xFFF0000000000000, None, 8) /\
  ReadBool (WriteBool [] true) 0 = Returns (true, None, 1).
Proof.
  assert (V : forall l : list Z, (List.length l <= 16)%nat -> valid_slice l).
  { intros l Hl. unfold valid_slice, len, max_int. lia. }
  split; [split; [|split] | split; [|split; [|split; [|split]]]].
  - cbv [representable is_int64]. lia.
  - apply V. cbn. lia.
  - apply (fixed_width_round_trip KLittleLong [9] (- 2 ^ 63)).
    + cbv [representable is_int64]. lia.
    + apply V. cbn. lia.
  - apply (fixed_width_round_trip KInt [] (-1)).
    + cbv [representable is_int32]. lia.
    + apply V. cbn. lia.
  - apply (fixed_width_round_trip KUnsignedLong [] (2 ^ 64 - 1)).
    + cbv [representable is_uint64]. lia.
    + apply V. cbn. lia.
  - apply (fixed_width_round_trip KFloat [] (Float32frombits 0x7FC00001)).
    + cbv [representable is_uint32 Float32bits]. lia.
    + apply V. cbn. lia.
  - apply (fixed_width_round_trip KLittleDouble []
             (Float64frombits 0xFFF0000000000000)).
    + cbv [representable is_uint64 Float64bits]. lia.
    + apply V. cbn. lia.
  - apply (fixed_width_round_trip KBool [] true).
    + exact I.
    + apply V. cbn. lia.
Defined.


(** ** Zig-zag *)

Section ZigZag.

(** The two widths share one argument, over the signed range of [w] bits. *)
Variable w : Z.
Hypothesis w_big : 1 < w.

Lemma pow_w : 2 ^ w = 2 * 2 ^ (w - 1).
Proof.
  replace w with (Z.succ (w - 1)) at 1 by lia.
  apply Z.pow_succ_r. lia.
Qed.

Lemma half_big : 2 <= 2 ^ (w - 1).
Proof.
  replace (w - 1) with (Z.succ (w - 2)) by lia.
  rewrite Z.pow_succ_r by lia.
  assert (0 < 2 ^ (w - 2)) by (apply Z.pow_pos_nonneg; lia). lia.
Qed.

(** The zig-zag code of [n], as a number. *)
Lemma to_zigzag_value (n : Z) :
  - 2 ^ (w - 1) <= n < 2 ^ (w - 1) ->
  wrap_unsigned w (Z.lxor (wrap_signed w (Z.shiftl n 1)) (Z.shiftr n (w - 1)))
  = if n <? 0 then - 2 * n - 1 else 2 * n.
Proof.
  intros Hn. pose proof pow_w as Ew. pose proof half_big as Hh.
  rewrite Z.shiftl_mul_pow2, Z.shiftr_div_pow2 by lia.
  change (2 ^ 1) with 2.
  assert (Es : exists k, wrap_signed w (n * 2) = n * 2 + k * 2 ^ w).
  { unfold wrap_signed.
    exists (- ((n * 2 + 2 ^ (w - 1)) / 2 ^ w)).
    pose proof (Z.div_mod (n * 2 + 2 ^ (w - 1)) (2 ^ w)). lia. }
  destruct Es as [k Ek]. rewrite Ek. unfold wrap_unsigned.
  set (half := 2 ^ (w - 1)) in *.
  destruct (Z.ltb_spec n 0) as [Hneg | Hpos].
  - replace (n / half) with (-1)
      by (apply Z.div_unique with (r := n + half); lia).
    rewrite Z.lxor_m1_r, Z.lnot_eq_pred_opp.
    replace (- (n * 2 + k * 2 ^ w) - 1) with (- 2 * n - 1 + (- k) * 2 ^ w)
      by lia.
    rewrite Z.mod_add by lia. apply Z.mod_small. lia.
  - rewrite Z.div_small by lia. rewrite Z.lxor_0_r.
    rewrite Z.mod_add by lia. rewrite Z.mod_small; lia.
Qed.

(** Decoding that number gives [n] back. *)
Lemma from_zigzag_value (n : Z) :
  - 2 ^ (w - 1) <= n < 2 ^ (w - 1) ->
  let u := if n <? 0 then - 2 * n - 1 else 2 * n in
  Z.lxor (wrap_signed w (Z.shiftr u 1))
         (wrap_signed w (- wrap_signed w (Z.land u 1))) = n.
Proof.
  intros Hn u. pose proof pow_w as Ew. pose proof half_big as Hh.
  rewrite Z.shiftr_div_pow2 by lia. change (2 ^ 1) with 2.
  change (Z.land u 1) with (Z.land u (Z.ones 1)). rewrite Z.land_ones by lia.
  change (2 ^ 1) with 2.
  subst u. destruct (Z.ltb_spec n 0) as [Hneg | Hpos].
  - replace ((- 2 * n - 1) / 2) with (- n - 1)
      by (apply Z.div_unique with (r := 1); lia).
    replace ((- 2 * n - 1) mod 2) with 1
      by (apply Z.mod_unique with (q := - n - 1); lia).
    rewrite (wrap_signed_small w 1) by lia.
    rewrite !wrap_signed_small by lia.
    change (- (1)) with (-1).
    rewrite Z.lxor_m1_r, Z.lnot_eq_pred_opp. lia.
  - replace (2 * n / 2) with n by (apply Z.div_unique with (r := 0); lia).
    replace (2 * n mod 2) with 0 by (apply Z.mod_unique with (q := n); lia).
    rewrite (wrap_signed_small w 0) by lia.
    rewrite !wrap_signed_small by lia.
    apply Z.lxor_0_r.
Qed.

End ZigZag.

Lemma fromZigZag32_toZigZag32 (v : Z) :
  is_int32 v -> fromZigZag32 (toZigZag32 v) = v.
Proof.
  intros H. unfold fromZigZag32, toZigZag32, to_uint32, to_int32.
  change 31 with (32 - 1).
  rewrite (to_zigzag_value 32) by (change (32 - 1) with 31; first [lia | exact H]).
  apply (from_zigzag_value 32); [lia | exact H].
Qed.

Lemma fromZigZag64_toZigZag64 (v : Z) :
  is_int64 v -> fromZigZag64 (toZigZag64 v) = v.
Proof.
  intros H. unfold fromZigZag64, toZigZag64, to_uint64, to_int64.
  change 63 with (64 - 1).
  rewrite (to_zigzag_value 64) by (change (64 - 1) with 63; first [lia | exact H]).
  apply (from_zigzag_value 64); [lia | exact H].
Qed.

(** C6.  Decoding the zig-zag code of any 32-bit signed integer gives the
    integer back, and likewise for any 64-bit signed integer; the 32-bit
    encoder maps 0 to 0, -1 to 1 and 1 to 2. *)
Theorem zigzag_round_trip :
  (forall v, is_int32 v -> fromZigZag32 (toZigZag32 v) = v) /\
  (forall v, is_int64 v -> fromZigZag64 (toZigZag64 v) = v) /\
  toZigZag32 0 = 0 /\ toZigZag32 (-1) = 1 /\ toZigZag32 1 = 2.
Proof.
  split; [exact fromZigZag32_toZigZag32|].
  split; [exact fromZigZag64_toZigZag64|].
  repeat split; reflexivity.
Qed.

Lemma zigzag_round_trip_witness :
  (is_int32 (- 2 ^ 31) /\ fromZigZag32 (toZigZag32 (- 2 ^ 31)) = - 2 ^ 31) /\
  (is_int64 (2 ^ 63 - 1) /\ fromZigZag64 (toZigZag64 (2 ^ 63 - 1)) = 2 ^ 63 - 1).
Proof.
  destruct zigzag_round_trip as (Z32 & Z64 & _).
  assert (H32 : is_int32 (- 2 ^ 31)) by (unfold is_int32; lia).
  assert (H64 : is_int64 (2 ^ 63 - 1)) by (unfold is_int64; lia).
  split; split; [exact H32 | exact (Z32 _ H32) | exact H64 | exact (Z64 _ H64)].
Defined.


(** ** Reading one byte *)

Lemma firstn_1_skipn {A : Type} (d : A) (n : nat) (l : list A) :
  (n < List.length l)%nat -> firstn 1 (skipn n l) = [nth n l d].
Proof.
  revert l. induction n as [|n IH]; intros [|x l] Hl; cbn in *; try lia.
  - reflexivity.
  - apply IH. lia.
Qed.

Lemma to_int_succ_inv (offset o : Z) :
  0 <= offset <= o -> o = to_int (offset + 1) -> o = offset + 1.
Proof.
  unfold to_int, wrap_signed. change (64 - 1) with 63. intros Ho E.
  pose proof (Z.div_mod (offset + 1 + 2 ^ 63) (2 ^ 64) ltac:(lia)) as D.
  pose proof (Z.mod_pos_bound (offset + 1 + 2 ^ 63) (2 ^ 64) ltac:(lia)) as B.
  lia.
Qed.

Lemma Read_one (buffer : list Z) (offset : Z) :
  valid_slice buffer -> 0 <= offset < len buffer ->
  Read buffer offset 1 =
    Returns ([nth (Z.to_nat offset) buffer 0], None, offset + 1).
Proof.
  unfold valid_slice. intros Hv Ho.
  rewrite Read_contract by lia.
  replace (len buffer <? offset + 1) with false by (symmetry; apply Z.ltb_ge; lia).
  rewrite (firstn_1_skipn 0) by (unfold len in Ho; lia).
  reflexivity.
Qed.

(** What a one-byte read can return, whatever the buffer and offset. *)
Lemma Read_one_inv (buffer : list Z) (offset : Z) b e o :
  Read buffer offset 1 = Returns (b, e, o) ->
  (b = [] /\ e = Some InsufficientBytes /\ o = offset)
  \/
  (0 <= offset < len buffer /\ b = [nth (Z.to_nat offset) buffer 0] /\
   e = None /\ o = offset + 1).
Proof.
  intros H. apply Read_inv in H.
  destruct H as [(_ & -> & -> & ->) | (Ho & Hlen & E & -> & ->)].
  - left. auto.
  - right. pose proof (to_int_succ_inv offset o ltac:(lia) E) as ->.
    replace (offset + 1 - offset) with 1 by lia.
    change (Z.to_nat 1) with 1%nat.
    rewrite (firstn_1_skipn 0) by (unfold len in Hlen; lia).
    repeat split; lia.
Qed.

Lemma byte_slice_nth (buffer : list Z) (n : nat) :
  byte_slice buffer -> is_byte (nth n buffer 0).
Proof.
  intros Hb. destruct (nth_in_or_default n buffer 0) as [Hin | ->].
  - unfold byte_slice in Hb. rewrite Forall_forall in Hb. auto.
  - unfold is_byte. lia.
Qed.

(** ** Variable-length integers *)


(** Groups consumed by one call of the 32-bit reader: it fails with
    [VarIntTooLarge] whenever the count passes five, and the count never
    passes six. *)
Lemma ReadUnsignedVarInt_loop_groups (buffer : list Z) (fuel : nat) :
  byte_slice buffer ->
  forall offset result j r e offset',
    0 <= j <= 5 ->
    ReadUnsignedVarInt_loop fuel buffer offset result j = Returns (r, e, offset') ->
    offset <= offset' /\ offset' - offset + j <= 6 /\
    (5 < offset' - offset + j -> r = 0 /\ e = Some VarIntTooLarge).
Proof.
  intros Hb. induction fuel as [|fuel IH]; intros offset result j r e offset' Hj H;
    [discriminate H|].
  cbn [ReadUnsignedVarInt_loop] in H.
  destruct (Read buffer offset 1) as [[[b e0] o]| |] eqn:ER; cbn [bind] in H;
    try discriminate H.
  apply Read_one_inv in ER.
  destruct ER as [(-> & -> & ->) | (Ho & -> & -> & ->)].
  - inversion H; subst. lia.
  - unfold index in H. cbn [nth] in H.
    pose proof (byte_slice_nth buffer (Z.to_nat offset) Hb) as Hx.
    unfold is_byte in Hx.
    replace (nth (Z.to_nat offset) buffer 0 <? 0) with false in H
      by (symmetry; apply Z.ltb_ge; lia).
    unfold to_uint32 in H.
    rewrite (wrap_unsigned_small 32 (j + 1)) in H by lia.
    destruct (Z.gtb_spec (j + 1) 5) as [Hgt | Hle].
    + inversion H; subst. repeat split; intros; try lia; reflexivity.
    + destruct (negb _).
      * apply IH in H; [|lia]. destruct H as (H1 & H2 & H3).
        repeat split; try lia. intros; apply H3; lia.
      * inversion H; subst. lia.
Qed.

Lemma ReadUnsignedVarLong_loop_groups (buffer : list Z) (fuel : nat) :
  byte_slice buffer ->
  forall offset result j r e offset',
    0 <= j <= 10 ->
    ReadUnsignedVarLong_loop fuel buffer offset result j = Returns (r, e, offset') ->
    offset <= offset' /\ offset' - offset + j <= 11 /\
    (10 < offset' - offset + j -> r = 0 /\ e = Some VarLongTooLarge).
Proof.
  intros Hb. induction fuel as [|fuel IH]; intros offset result j r e offset' Hj H;
    [discriminate H|].
  cbn [ReadUnsignedVarLong_loop] in H.
  destruct (Read buffer offset 1) as [[[b e0] o]| |] eqn:ER; cbn [bind] in H;
    try discriminate H.
  apply Read_one_inv in ER.
  destruct ER as [(-> & -> & ->) | (Ho & -> & -> & ->)].
  - inversion H; subst. lia.
  - unfold index in H. cbn [nth] in H.
    pose proof (byte_slice_nth buffer (Z.to_nat offset) Hb) as Hx.
    unfold is_byte in Hx.
    replace (nth (Z.to_nat offset) buffer 0 <? 0) with false in H
      by (symmetry; apply Z.ltb_ge; lia).
    unfold to_uint64 in H.
    rewrite (wrap_unsigned_small 64 (j + 1)) in H by lia.
    destruct (Z.gtb_spec (j + 1) 10) as [Hgt | Hle].
    + inversion H; subst. repeat split; intros; try lia; reflexivity.
    + destruct (negb _).
      * apply IH in H; [|lia]. destruct H as (H1 & H2 & H3).
        repeat split; try lia. intros; apply H3; lia.
      * inversion H; subst. lia.
Qed.



(** Five continuation bytes in a row make the 32-bit reader give up on the
    sixth byte, whatever that byte is. *)
Lemma ReadUnsignedVarInt_loop_too_large (buffer : list Z) :
  valid_slice buffer -> byte_slice buffer ->
  forall fuel offset result j,
    0 <= j <= 5 -> Z.of_nat fuel = 6 - j ->
    0 <= offset -> offset + (6 - j) <= len buffer ->
    (forall i, 0 <= i < 5 - j ->
               continues (nth (Z.to_nat (offset + i)) buffer 0) = true) ->
    ReadUnsignedVarInt_loop fuel buffer offset result j =
      Returns (0, Some VarIntTooLarge, offset + (6 - j)).
Proof.
  intros Hv Hb. induction fuel as [|fuel IH]; intros offset result j Hj Hf Ho Hlen Hc;
    [lia|].
  cbn [ReadUnsignedVarInt_loop].
  rewrite Read_one by (auto; lia). cbn [bind]. unfold index. cbn [nth].
  pose proof (byte_slice_nth buffer (Z.to_nat offset) Hb) as Hx.
  unfold is_byte in Hx.
  replace (nth (Z.to_nat offset) buffer 0 <? 0) with false
    by (symmetry; apply Z.ltb_ge; lia).
  unfold to_uint32. rewrite (wrap_unsigned_small 32 (j + 1)) by lia.
  destruct (Z.gtb_spec (j + 1) 5) as [Hgt | Hle].
  - replace (offset + (6 - j)) with (offset + 1) by lia. reflexivity.
  - pose proof (Hc 0 ltac:(lia)) as C0. rewrite Z.add_0_r in C0.
    unfold continues in C0. rewrite C0.
    rewrite IH; try lia.
    + f_equal. f_equal. lia.
    + intros i Hi. replace (offset + 1 + i) with (offset + (i + 1)) by lia.
      apply Hc. lia.
Qed.

Lemma ReadUnsignedVarLong_loop_too_large (buffer : list Z) :
  valid_slice buffer -> byte_slice buffer ->
  forall fuel offset result j,
    0 <= j <= 10 -> Z.of_nat fuel = 11 - j ->
    0 <= offset -> offset + (11 - j) <= len buffer ->
    (forall i, 0 <= i < 10 - j ->
               continues (nth (Z.to_nat (offset + i)) buffer 0) = true) ->
    ReadUnsignedVarLong_loop fuel buffer offset result j =
      Returns (0, Some VarLongTooLarge, offset + (11 - j)).
Proof.
  intros Hv Hb. induction fuel as [|fuel IH]; intros offset result j Hj Hf Ho Hlen Hc;
    [lia|].
  cbn [ReadUnsignedVarLong_loop].
  rewrite Read_one by (auto; lia). cbn [bind]. unfold index. cbn [nth].
  pose proof (byte_slice_nth buffer (Z.to_nat offset) Hb) as Hx.
  unfold is_byte in Hx.
  replace (nth (Z.to_nat offset) buffer 0 <? 0) with false
    by (symmetry; apply Z.ltb_ge; lia).
  unfold to_uint64. rewrite (wrap_unsigned_small 64 (j + 1)) by lia.
  destruct (Z.gtb_spec (j + 1) 10) as [Hgt | Hle].
  - replace (offset + (11 - j)) with (offset + 1) by lia. reflexivity.
  - pose proof (Hc 0 ltac:(lia)) as C0. rewrite Z.add_0_r in C0.
    unfold continues in C0. rewrite C0.
    rewrite IH; try lia.
    + f_equal. f_equal. lia.
    + intros i Hi. replace (offset + 1 + i) with (offset + (i + 1)) by lia.
      apply Hc. lia.
Qed.

(** The read loops always leave through one of their [return]s: six
    (eleven) turns are all the guard on [j] allows. *)
Lemma ReadUnsignedVarInt_loop_total (buffer : list Z) (fuel : nat) :
  forall offset result j,
    0 <= j <= 5 -> 6 <= Z.of_nat fuel + j ->
    ReadUnsignedVarInt_loop fuel buffer offset result j <> OutOfFuel.
Proof.
  induction fuel as [|fuel IH]; intros offset result j Hj Hf; [lia|].
  cbn [ReadUnsignedVarInt_loop]. unfold Read.
  destruct (_ <? _); cbn [bind]; [discriminate|].
  destruct (slice _ _ _) eqn:ES; cbn [bind]; try discriminate.
  - destruct (_ <? 0); [discriminate|].
    unfold to_uint32. rewrite (wrap_unsigned_small 32 (j + 1)) by lia.
    destruct (Z.gtb_spec (j + 1) 5); [discriminate|].
    destruct (negb _); [|discriminate]. apply IH; lia.
  - unfold slice in ES. destruct (_ && _); discriminate.
Qed.

Lemma ReadUnsignedVarLong_loop_total (buffer : list Z) (fuel : nat) :
  forall offset result j,
    0 <= j <= 10 -> 11 <= Z.of_nat fuel + j ->
    ReadUnsignedVarLong_loop fuel buffer offset result j <> OutOfFuel.
Proof.
  induction fuel as [|fuel IH]; intros offset result j Hj Hf; [lia|].
  cbn [ReadUnsignedVarLong_loop]. unfold Read.
  destruct (_ <? _); cbn [bind]; [discriminate|].
  destruct (slice _ _ _) eqn:ES; cbn [bind]; try discriminate.
  - destruct (_ <? 0); [discriminate|].
    unfold to_uint64. rewrite (wrap_unsigned_small 64 (j + 1)) by lia.
    destruct (Z.gtb_spec (j + 1) 10); [discriminate|].
    destruct (negb _); [|discriminate]. apply IH; lia.
  - unfold slice in ES. destruct (_ && _); discriminate.
Qed.

Lemma ReadUnsignedVarInt_total (buffer : list Z) (offset : Z) :
  ReadUnsignedVarInt buffer offset <> OutOfFuel.
Proof. apply ReadUnsignedVarInt_loop_total; cbn; lia. Qed.

Lemma ReadUnsignedVarLong_total (buffer : list Z) (offset : Z) :
  ReadUnsignedVarLong buffer offset <> OutOfFuel.
Proof. apply ReadUnsignedVarLong_loop_total; cbn; lia. Qed.

(** The write loops: a value below [2^(7*fuel)] is written in at most
    [fuel] bytes, so five (ten) loop tests serve every uint32 (uint64). *)
Lemma low_seven_bits (w value : Z) :
  7 <= w -> 0 <= value < 2 ^ 7 ->
  Z.land value (wrap_unsigned w (-128)) = 0.
Proof.
  intros Hw Hv. apply Z.bits_inj'. intros n Hn.
  rewrite Z.land_spec, Z.bits_0.
  destruct (Z.ltb_spec n 7) as [Hlt | Hge].
  - unfold wrap_unsigned. rewrite Z.testbit_mod_pow2 by lia.
    replace (-128) with (Z.shiftl (-1) 7) by reflexivity.
    rewrite Z.shiftl_spec_low by lia. rewrite !andb_false_r. reflexivity.
  - rewrite (testbit_small 7 value n) by lia.
    replace (n <? 7) with false by (symmetry; apply Z.ltb_ge; lia).
    reflexivity.
Qed.

Lemma shiftr_7_bound (value : Z) (fuel : nat) :
  0 <= value < 2 ^ (7 * Z.of_nat (S fuel)) ->
  0 <= Z.shiftr value 7 < 2 ^ (7 * Z.of_nat fuel).
Proof.
  intros Hv. rewrite Z.shiftr_div_pow2 by lia.
  replace (7 * Z.of_nat (S fuel)) with (7 * Z.of_nat fuel + 7) in Hv by lia.
  rewrite Z.pow_add_r in Hv by lia.
  assert (0 < 2 ^ (7 * Z.of_nat fuel)) by (apply Z.pow_pos_nonneg; lia).
  split.
  - apply Z.div_pos; lia.
  - apply Z.div_lt_upper_bound; lia.
Qed.

Lemma WriteUnsignedVarInt_loop_appends (fuel : nat) :
  forall buffer value,
    0 <= value < 2 ^ (7 * Z.of_nat (S fuel)) ->
    exists enc,
      WriteUnsignedVarInt_loop (S fuel) buffer value = Returns (buffer ++ enc) /\
      1 <= len enc <= Z.of_nat (S fuel).
Proof.
  induction fuel as [|fuel IH]; intros buffer value Hv.
  - cbn [WriteUnsignedVarInt_loop]. unfold to_uint32.
    rewrite low_seven_bits by (cbn in Hv; lia). cbn [Z.eqb negb].
    exists [to_byte value]. split; [reflexivity | cbn; lia].
  - cbn [WriteUnsignedVarInt_loop]. destruct (negb _).
    + destruct (IH (Write buffer (to_byte (Z.lor (Z.land value 0x7F) 0x80)))
                  (Z.shiftr value 7) (shiftr_7_bound _ _ Hv)) as (enc & E & L).
      cbn [WriteUnsignedVarInt_loop] in E. rewrite E. unfold Write.
      exists (to_byte (Z.lor (Z.land value 0x7F) 0x80) :: enc).
      rewrite <- app_assoc. split; [reflexivity|].
      unfold len in *. cbn [List.length]. lia.
    + exists [to_byte value]. split; [reflexivity | cbn; lia].
Qed.

Lemma WriteUnsignedVarLong_loop_appends (fuel : nat) :
  forall buffer value,
    0 <= value < 2 ^ (7 * Z.of_nat (S fuel)) ->
    exists enc,
      WriteUnsignedVarLong_loop (S fuel) buffer value = Returns (buffer ++ enc) /\
      1 <= len enc <= Z.of_nat (S fuel).
Proof.
  induction fuel as [|fuel IH]; intros buffer value Hv.
  - cbn [WriteUnsignedVarLong_loop]. unfold to_uint64.
    rewrite low_seven_bits by (cbn in Hv; lia). cbn [Z.eqb negb].
    exists [to_byte value]. split; [reflexivity | cbn; lia].
  - cbn [WriteUnsignedVarLong_loop]. destruct (negb _).
    + destruct (IH (Write buffer (to_byte (Z.lor (Z.land value 0x7F) 0x80)))
                  (Z.shiftr value 7) (shiftr_7_bound _ _ Hv)) as (enc & E & L).
      cbn [WriteUnsignedVarLong_loop] in E. rewrite E. unfold Write.
      exists (to_byte (Z.lor (Z.land value 0x7F) 0x80) :: enc).
      rewrite <- app_assoc. split; [reflexivity|].
      unfold len in *. cbn [List.length]. lia.
    + exists [to_byte value]. split; [reflexivity | cbn; lia].
Qed.

(** Every uint32 is written, in one to five bytes. *)
Lemma WriteUnsignedVarInt_appends (buffer : list Z) (value : Z) :
  is_uint32 value ->
  exists enc, WriteUnsignedVarInt buffer value = Returns (buffer ++ enc) /\
              1 <= len enc <= 5.
Proof.
  intros Hv. apply (WriteUnsignedVarInt_loop_appends 4).
  unfold is_uint32 in Hv. change (2 ^ (7 * Z.of_nat 5)) with (2 ^ 35). lia.
Qed.

Lemma WriteUnsignedVarLong_appends (buffer : list Z) (value : Z) :
  is_uint64 value ->
  exists enc, WriteUnsignedVarLong buffer value = Returns (buffer ++ enc) /\
              1 <= len enc <= 10.
Proof.
  intros Hv. apply (WriteUnsignedVarLong_loop_appends 9).
  unfold is_uint64 in Hv. change (2 ^ (7 * Z.of_nat 10)) with (2 ^ 70). lia.
Qed.


Ltac eval_write :=
  eexists; split; [cbv -[app]; rewrite <- ?app_assoc; reflexivity | reflexivity].

(** C4.  [WriteUnsignedVarInt] writes 0, 127, 128, 2^28-1 and 2^32-1 in
    exactly 1, 1, 2, 4 and 5 bytes.  Whenever [ReadUnsignedVarInt] has
    consumed more than five groups it has failed with [VarIntTooLarge]; it
    does so on every sequence of six groups (five bytes with the
    continuation bit, then any byte).  [ReadUnsignedVarLong] behaves the
    same way past ten groups, with [VarLongTooLarge]. *)
Theorem varint_boundaries :
  (forall buffer,
      appends buffer (WriteUnsignedVarInt buffer 0) 1 /\
      appends buffer (WriteUnsignedVarInt buffer 127) 1 /\
      appends buffer (WriteUnsignedVarInt buffer 128) 2 /\
      appends buffer (WriteUnsignedVarInt buffer (2 ^ 28 - 1)) 4 /\
      appends buffer (WriteUnsignedVarInt buffer (2 ^ 32 - 1)) 5) /\
  (forall buffer offset r e offset',
      byte_slice buffer ->
      ReadUnsignedVarInt buffer offset = Returns (r, e, offset') ->
      5 < offset' - offset ->
      r = 0 /\ e = Some VarIntTooLarge) /\
  (forall buffer offset,
      valid_slice buffer -> byte_slice buffer ->
      0 <= offset -> offset + 6 <= len buffer ->
      (forall i, 0 <= i < 5 ->
                 continues (nth (Z.to_nat (offset + i)) buffer 0) = true) ->
      ReadUnsignedVarInt buffer offset =
        Returns (0, Some VarIntTooLarge, offset + 6)) /\
  (forall buffer offset r e offset',
      byte_slice buffer ->
      ReadUnsignedVarLong buffer offset = Returns (r, e, offset') ->
      10 < offset' - offset ->
      r = 0 /\ e = Some VarLongTooLarge) /\
  (forall buffer offset,
      valid_slice buffer -> byte_slice buffer ->
      0 <= offset -> offset + 11 <= len buffer ->
      (forall i, 0 <= i < 10 ->
                 continues (nth (Z.to_nat (offset + i)) buffer 0) = true) ->
      ReadUnsignedVarLong buffer offset =
        Returns (0, Some VarLongTooLarge, offset + 11)).
Proof.
  split; [|split; [|split; [|split]]].
  - intros buffer. unfold appends. repeat split; eval_write.
  - intros buffer offset r e offset' Hb H Hn.
    apply (ReadUnsignedVarInt_loop_groups buffer 6 Hb) in H; [|lia].
    apply H. lia.
  - intros buffer offset Hv Hb Ho Hlen Hc.
    apply (ReadUnsignedVarInt_loop_too_large buffer Hv Hb 6 offset 0 0);
      auto; lia.
  - intros buffer offset r e offset' Hb H Hn.
    apply (ReadUnsignedVarLong_loop_groups buffer 11 Hb) in H; [|lia].
    apply H. lia.
  - intros buffer offset Hv Hb Ho Hlen Hc.
    apply (ReadUnsignedVarLong_loop_too_large buffer Hv Hb 11 offset 0 0);
      auto; lia.
Qed.

Lemma varint_boundaries_witness :
  let six := [0xFF; 0xFF; 0xFF; 0xFF; 0xFF; 0x01] in
  let eleven := [0x80; 0x80; 0x80; 0x80; 0x80; 0x80; 0x80; 0x80; 0x80; 0x80;
                 0x00] in
  (valid_slice six /\ byte_slice six /\
   ReadUnsignedVarInt six 0 = Returns (0, Some VarIntTooLarge, 0 + 6)) /\
  (valid_slice eleven /\ byte_slice eleven /\
   ReadUnsignedVarLong eleven 0 = Returns (0, Some VarLongTooLarge, 0 + 11)).
Proof.
  cbv zeta.
  destruct varint_boundaries as (_ & _ & R32 & _ & R64).
  assert (V : forall l : list Z, (List.length l <= 16)%nat -> valid_slice l).
  { intros l Hl. unfold valid_slice, len, max_int. lia. }
  assert (B : forall l : list Z,
             forallb (fun b => (0 <=? b) && (b <? 256)) l = true ->
             byte_slice l).
  { intros l Hl. unfold byte_slice. apply Forall_forall. intros b Hin.
    rewrite forallb_forall in Hl. specialize (Hl b Hin).
    apply andb_true_iff in Hl. destruct Hl as [L U].
    apply Z.leb_le in L. apply Z.ltb_lt in U. unfold is_byte. lia. }
  split; (split; [apply V; cbn; lia | split; [apply B; reflexivity|]]).
  - apply R32; [apply V; cbn; lia | apply B; reflexivity | lia
               | unfold len; cbn; lia |].
    intros i Hi.
    assert (C : i = 0 \/ i = 1 \/ i = 2 \/ i = 3 \/ i = 4) by lia.
    destruct C as [-> | [-> | [-> | [-> | ->]]]]; reflexivity.
  - apply R64; [apply V; cbn; lia | apply B; reflexivity | lia
               | unfold len; cbn; lia |].
    intros i Hi.
    assert (C : i = 0 \/ i = 1 \/ i = 2 \/ i = 3 \/ i = 4 \/
                i = 5 \/ i = 6 \/ i = 7 \/ i = 8 \/ i = 9) by lia.
    destruct C as [-> | [-> | [-> | [-> | [-> | [-> | [-> | [-> | [-> | ->]]]]]]]]];
      reflexivity.
Defined.


(** ** Triads *)

(** Or-ing a value into the bits above a smaller one adds them. *)
Lemma lor_shiftl_add (a b k : Z) :
  0 <= k -> 0 <= a < 2 ^ k -> Z.lor a (Z.shiftl b k) = a + b * 2 ^ k.
Proof.
  intros Hk Ha. rewrite <- Z.shiftl_mul_pow2 by lia.
  apply Z.or_to_plus. apply Z.bits_inj'. intros n Hn.
  rewrite Z.land_spec, Z.bits_0.
  destruct (Z.ltb_spec n k) as [Hlt | Hge].
  - rewrite Z.shiftl_spec_low by lia. apply andb_false_r.
  - rewrite (testbit_small k a n) by lia.
    replace (n <? k) with false by (symmetry; apply Z.ltb_ge; lia).
    reflexivity.
Qed.

Lemma land_low_bits (a k : Z) : 0 <= k -> Z.land a (Z.ones k) = a mod 2 ^ k.
Proof. intros Hk. apply Z.land_ones. exact Hk. Qed.

(** The value both triad readers build from three bytes: the low byte, the
    middle byte, and only the low nibble of the high byte. *)
Lemma triad_value (lo mid hi : Z) :
  is_byte lo -> is_byte mid -> is_byte hi ->
  Z.lor (Z.lor (Z.land lo 0xFF) (shl32 (Z.land mid 0xFF) 8))
        (shl32 (Z.land hi 0x0F) 16)
  = lo + mid * 2 ^ 8 + (hi mod 2 ^ 4) * 2 ^ 16.
Proof.
  unfold is_byte. intros Hlo Hmid Hhi.
  change 0xFF with (Z.ones 8). change 0x0F with (Z.ones 4).
  rewrite !land_low_bits by lia.
  rewrite (Z.mod_small lo), (Z.mod_small mid) by lia.
  pose proof (Z.mod_pos_bound hi (2 ^ 4) ltac:(lia)) as Hn.
  unfold shl32, to_uint32, wrap_unsigned.
  rewrite !Z.shiftl_mul_pow2 by lia.
  rewrite !Z.mod_small by lia.
  rewrite <- (Z.shiftl_mul_pow2 mid 8), <- (Z.shiftl_mul_pow2 (hi mod 2 ^ 4) 16)
    by lia.
  rewrite (lor_shiftl_add lo mid 8) by lia.
  rewrite lor_shiftl_add by lia.
  rewrite ?Z.shiftl_mul_pow2 by lia. reflexivity.
Qed.

Lemma ReadLittleTriad_bytes (buffer : list Z) (b0 b1 b2 : Z) :
  is_byte b0 -> is_byte b1 -> is_byte b2 ->
  valid_slice (buffer ++ [b0; b1; b2]) ->
  ReadLittleTriad (buffer ++ [b0; b1; b2]) (len buffer) =
    Returns (b0 + b1 * 2 ^ 8 + (b2 mod 2 ^ 4) * 2 ^ 16, None, len buffer + 3).
Proof.
  intros H0 H1 H2 Hv. unfold ReadLittleTriad. read_back.
  unfold index. cbn [nth]. rewrite triad_value by assumption. reflexivity.
Qed.

Lemma ReadBigTriad_bytes (buffer : list Z) (b0 b1 b2 : Z) :
  is_byte b0 -> is_byte b1 -> is_byte b2 ->
  valid_slice (buffer ++ [b0; b1; b2]) ->
  ReadBigTriad (buffer ++ [b0; b1; b2]) (len buffer) =
    Returns ((b0 mod 2 ^ 4) * 2 ^ 16 + b1 * 2 ^ 8 + b2, None, len buffer + 3).
Proof.
  intros H0 H1 H2 Hv. unfold ReadBigTriad. read_back.
  unfold index. cbn [nth]. rewrite triad_value by assumption.
  f_equal. f_equal. f_equal. lia.
Qed.

(** The three bytes both triad writers produce, as numbers. *)
Lemma triad_byte (v k : Z) :
  0 <= k -> Z.land (to_byte (Z.shiftr v k)) 0xFF = (v / 2 ^ k) mod 2 ^ 8.
Proof.
  intros Hk. change 0xFF with (Z.ones 8). rewrite land_low_bits by lia.
  unfold to_byte, wrap_unsigned. rewrite Z.shiftr_div_pow2 by lia.
  apply Z.mod_mod. lia.
Qed.

Lemma triad_low_byte (v : Z) : to_byte (Z.land v 0xFF) = v mod 2 ^ 8.
Proof.
  change 0xFF with (Z.ones 8). rewrite land_low_bits by lia.
  unfold to_byte, wrap_unsigned. apply Z.mod_mod. lia.
Qed.

Lemma WriteLittleTriad_bytes (buffer : list Z) (v : Z) :
  WriteLittleTriad buffer v =
    buffer ++ [v mod 2 ^ 8; (v / 2 ^ 8) mod 2 ^ 8; (v / 2 ^ 16) mod 2 ^ 8].
Proof.
  unfold WriteLittleTriad, Write. cbv zeta.
  rewrite triad_low_byte, !triad_byte by lia.
  rewrite <- !app_assoc. reflexivity.
Qed.

Lemma WriteBigTriad_bytes (buffer : list Z) (v : Z) :
  WriteBigTriad buffer v =
    buffer ++ [(v / 2 ^ 16) mod 2 ^ 8; (v / 2 ^ 8) mod 2 ^ 8; v mod 2 ^ 8].
Proof.
  unfold WriteBigTriad, Write. cbv zeta.
  rewrite triad_low_byte, !triad_byte by lia.
  rewrite <- !app_assoc. reflexivity.
Qed.

Lemma byte_of_mod (x : Z) : is_byte (x mod 2 ^ 8).
Proof. unfold is_byte. apply Z.mod_pos_bound. lia. Qed.

Lemma ReadLittleTriad_WriteLittleTriad (buffer : list Z) (v : Z) :
  valid_slice (WriteLittleTriad buffer v) ->
  ReadLittleTriad (WriteLittleTriad buffer v) (len buffer) =
    Returns (v mod 2 ^ 20, None, len buffer + 3).
Proof.
  rewrite WriteLittleTriad_bytes. intros Hv.
  rewrite ReadLittleTriad_bytes by (auto using byte_of_mod).
  f_equal. f_equal. f_equal.
  change (2 ^ 8) with 256. change (2 ^ 16) with 65536.
  change (2 ^ 4) with 16. change (2 ^ 20) with 1048576.
  Z.div_mod_to_equations. lia.
Qed.

(** C7.  Writing 0xFFFFFFFF with [WriteLittleTriad] and reading it back
    with [ReadLittleTriad] at the write position yields 0x000FFFFF; for any
    value only bits 0-19 survive, because the read keeps the low nibble
    alone of the most significant byte.  [ReadBigTriad] masks its first
    byte in the same way, while [WriteBigTriad] writes the low 24 bits of
    its argument in full. *)
Theorem triad_masking :
  (forall buffer,
      valid_slice (WriteLittleTriad buffer 0xFFFFFFFF) ->
      ReadLittleTriad (WriteLittleTriad buffer 0xFFFFFFFF) (len buffer) =
        Returns (0x000FFFFF, None, len buffer + 3)) /\
  (forall buffer v,
      valid_slice (WriteLittleTriad buffer v) ->
      ReadLittleTriad (WriteLittleTriad buffer v) (len buffer) =
        Returns (v mod 2 ^ 20, None, len buffer + 3)) /\
  (forall buffer b0 b1 b2,
      is_byte b0 -> is_byte b1 -> is_byte b2 ->
      valid_slice (buffer ++ [b0; b1; b2]) ->
      ReadLittleTriad (buffer ++ [b0; b1; b2]) (len buffer) =
        Returns (b0 + b1 * 2 ^ 8 + (b2 mod 2 ^ 4) * 2 ^ 16, None,
                 len buffer + 3)) /\
  (forall buffer b0 b1 b2,
      is_byte b0 -> is_byte b1 -> is_byte b2 ->
      valid_slice (buffer ++ [b0; b1; b2]) ->
      ReadBigTriad (buffer ++ [b0; b1; b2]) (len buffer) =
        Returns ((b0 mod 2 ^ 4) * 2 ^ 16 + b1 * 2 ^ 8 + b2, None,
                 len buffer + 3)) /\
  (forall buffer v,
      exists b0 b1 b2,
        WriteBigTriad buffer v = buffer ++ [b0; b1; b2] /\
        is_byte b0 /\ is_byte b1 /\ is_byte b2 /\
        b0 * 2 ^ 16 + b1 * 2 ^ 8 + b2 = v mod 2 ^ 24).
Proof.
  split; [|split; [|split; [|split]]].
  - intros buffer Hv.
    apply (ReadLittleTriad_WriteLittleTriad buffer 0xFFFFFFFF Hv).
  - exact ReadLittleTriad_WriteLittleTriad.
  - exact ReadLittleTriad_bytes.
  - exact ReadBigTriad_bytes.
  - intros buffer v. rewrite WriteBigTriad_bytes.
    do 3 eexists. split; [reflexivity|].
    repeat split; try apply byte_of_mod.
    change (2 ^ 8) with 256. change (2 ^ 16) with 65536.
    change (2 ^ 24) with 16777216.
    Z.div_mod_to_equations. lia.
Qed.

Lemma triad_masking_witness :
  (valid_slice (WriteLittleTriad [] 0xFFFFFFFF) /\
   ReadLittleTriad (WriteLittleTriad [] 0xFFFFFFFF) (len (@nil Z)) =
     Returns (0x000FFFFF, None, len (@nil Z) + 3)) /\
  (is_byte 0xFF /\ valid_slice ([] ++ [0xFF; 0xFF; 0xFF]) /\
   ReadBigTriad ([] ++ [0xFF; 0xFF; 0xFF]) (len (@nil Z)) =
     Returns ((0xFF mod 2 ^ 4) * 2 ^ 16 + 0xFF * 2 ^ 8 + 0xFF, None,
              len (@nil Z) + 3)).
Proof.
  destruct triad_masking as (L & _ & _ & B & _).
  assert (V : forall l : list Z, (List.length l <= 16)%nat -> valid_slice l).
  { intros l Hl. unfold valid_slice, len, max_int. lia. }
  assert (F : is_byte 0xFF) by (unfold is_byte; lia).
  split; [split | split; [|split]].
  - apply V. cbn. lia.
  - apply L. apply V. cbn. lia.
  - exact F.
  - apply V. cbn. lia.
  - apply B; [exact F | exact F | exact F | apply V; cbn; lia].
Defined.


(** C2.  The claim is that [Read] fails with [InsufficientBytes] exactly
    when [offset + length] exceeds the buffer length, for every offset
    inside the buffer and every non-negative length.  [Read_contract] above
    gives that wherever the sum is an [int].  Here is the rest of the
    domain: when the sum overflows, it does exceed the buffer length, yet
    [Read] returns no error at all and panics in the slice expression. *)
Theorem Read_overflow_panics (buffer : list Z) (offset length : Z) :
  valid_slice buffer -> 0 <= offset <= len buffer -> 0 <= length <= max_int ->
  max_int < offset + length ->
  len buffer < offset + length /\ Read buffer offset length = Panics.
Proof.
  intros Hv Ho Hl Hov. split.
  - unfold valid_slice in Hv. lia.
  - apply Read_overflow; assumption.
Qed.

Lemma Read_overflow_panics_witness :
  len [0] < 1 + max_int /\ Read [0] 1 max_int = Panics.
Proof.
  apply (Read_overflow_panics [0] 1 max_int);
    unfold valid_slice, len, max_int; cbn [List.length Z.of_nat]; lia.
Defined.

(** ** The Stream *)

(** Putters never look at [stream.err]. *)
Lemma put_with_appends {A : Type} (wr : list Z -> A -> list Z)
    (offset : Z) (buffer : list Z) (e : option streamErr) (v : A) :
  put_with wr (mk_Stream offset buffer e) v =
    Returns (tt, mk_Stream offset (wr buffer v) e).
Proof. reflexivity. Qed.

(** The getters that begin with [if stream.err != nil] stop there on
    every stream whose pointer is set. *)
Lemma checked_getters_short_circuit (offset : Z) (buffer : list Z)
    (se : streamErr) :
  let stream := mk_Stream offset buffer (Some se) in
  (forall length, Get stream length = Returns ([], stream)) /\
  GetVarInt stream = Returns (0, stream) /\
  GetVarLong stream = Returns (0, stream) /\
  GetUnsignedVarInt stream = Returns (0, stream) /\
  GetUnsignedVarLong stream = Returns (0, stream) /\
  GetString stream = Returns ([], stream) /\
  GetLengthPrefixedBytes stream = Returns ([], stream).
Proof. cbv zeta. repeat split. Qed.

(** No getter or putter ever resets the pointer. *)
Lemma SetError_keeps_pointer (stream stream' : Stream) (e : option error) :
  SetError stream e = Returns stream' -> err_not_nil stream' = true.
Proof.
  unfold SetError. destruct (err stream); intros H; inversion H. reflexivity.
Qed.

Lemma get_with_keeps_pointer {A : Type} (rd : reader A) (stream stream' : Stream)
    (b : A) :
  err_not_nil stream = true ->
  get_with rd stream = Returns (b, stream') -> err_not_nil stream' = true.
Proof.
  unfold get_with. intros Hp.
  destruct (rd _ _) as [[[b0 e] o]| |]; cbn [bind]; try discriminate.
  destruct e as [e|].
  - destruct (SetError _ _) as [s| |] eqn:ES; cbn [bind]; try discriminate.
    intros H; inversion H; subst. eapply SetError_keeps_pointer; eauto.
  - intros H; inversion H; subst. exact Hp.
Qed.

Lemma method_call_keeps_pointer (s s' : Stream) :
  method_call s s' -> err_not_nil s = true -> err_not_nil s' = true.
Proof.
  assert (G : forall (A : Type) (zero : A) (rd : reader A) (b : A),
             (if err_not_nil s then Returns (zero, s) else get_with rd s)
             = Returns (b, s') ->
             err_not_nil s = true -> err_not_nil s' = true).
  { intros A zero rd b H Hp. rewrite Hp in H. inversion H; subst. exact Hp. }
  intros C Hp. destruct C as
    [A rd s b s' H | A wr s v s' H | A wr s v s' H | s length b s' H
    | s v s' H | s v s' H | s v s' H | s v s' H | s v s' H | s v s' H
    | s v s' H | s v s' H | s v s' H | s e s' H | s offset | s buffer | s].
  - eapply get_with_keeps_pointer; eauto.
  - inversion H; subst. exact Hp.
  - unfold put_with_loop in H. destruct (wr _ _); cbn [bind] in H;
      inversion H; subst. exact Hp.
  - unfold Get in H. rewrite Hp in H. inversion H; subst. exact Hp.
  - unfold GetVarInt in H. rewrite Hp in H. inversion H; subst. exact Hp.
  - unfold GetVarLong in H. rewrite Hp in H. inversion H; subst. exact Hp.
  - unfold GetUnsignedVarInt in H. rewrite Hp in H. inversion H; subst.
    exact Hp.
  - unfold GetUnsignedVarLong in H. rewrite Hp in H. inversion H; subst.
    exact Hp.
  - unfold GetString in H. rewrite Hp in H. inversion H; subst. exact Hp.
  - unfold GetLengthPrefixedBytes, GetString in H. rewrite Hp in H.
    inversion H; subst. exact Hp.
  - unfold PutString in H. destruct (WriteUnsignedVarInt _ _); cbn [bind] in H;
      inversion H; subst. exact Hp.
  - inversion H; subst. exact Hp.
  - unfold PutLengthPrefixedBytes, PutUnsignedVarInt, put_with_loop in H.
    destruct (WriteUnsignedVarInt _ _); cbn [bind] in H;
      inversion H; subst. exact Hp.
  - eapply SetError_keeps_pointer; eauto.
  - exact Hp.
  - exact Hp.
  - exact Hp.
Qed.

Lemma constructed_pointer_set (s : Stream) :
  constructed s -> err_not_nil s = true.
Proof.
  induction 1 as [| buf offset | s s' _ IH C]; try reflexivity.
  eapply method_call_keeps_pointer; eauto.
Qed.

(** C8.  A stream made by [NewStream] or [NewGetStream] has a non-nil
    [err] pointer although nothing has failed, so [Error] returns a non-nil
    error on a fresh stream.  The getters that test the pointer ([Get],
    [GetVarInt], [GetVarLong], [GetUnsignedVarInt], [GetUnsignedVarLong],
    [GetString], [GetLengthPrefixedBytes]) therefore always return their
    zero value and leave the stream as it was, for every buffer and offset,
    and after any sequence of calls. *)
Theorem constructed_streams_short_circuit :
  err_not_nil NewStream = true /\
  (forall buf offset, err_not_nil (NewGetStream buf offset) = true) /\
  iface_is_nil (Error NewStream) = false /\
  (forall buf offset, iface_is_nil (Error (NewGetStream buf offset)) = false) /\
  (forall buf offset,
      let stream := NewGetStream buf offset in
      (forall length, Get stream length = Returns ([], stream)) /\
      GetVarInt stream = Returns (0, stream) /\
      GetVarLong stream = Returns (0, stream) /\
      GetUnsignedVarInt stream = Returns (0, stream) /\
      GetUnsignedVarLong stream = Returns (0, stream) /\
      GetString stream = Returns ([], stream) /\
      GetLengthPrefixedBytes stream = Returns ([], stream)) /\
  (forall offset buffer se,
      let stream := mk_Stream offset buffer (Some se) in
      (forall length, Get stream length = Returns ([], stream)) /\
      GetVarInt stream = Returns (0, stream) /\
      GetVarLong stream = Returns (0, stream) /\
      GetUnsignedVarInt stream = Returns (0, stream) /\
      GetUnsignedVarLong stream = Returns (0, stream) /\
      GetString stream = Returns ([], stream) /\
      GetLengthPrefixedBytes stream = Returns ([], stream)) /\
  (forall stream,
      constructed stream ->
      (forall length, Get stream length = Returns ([], stream)) /\
      GetVarInt stream = Returns (0, stream) /\
      GetVarLong stream = Returns (0, stream) /\
      GetUnsignedVarInt stream = Returns (0, stream) /\
      GetUnsignedVarLong stream = Returns (0, stream) /\
      GetString stream = Returns ([], stream) /\
      GetLengthPrefixedBytes stream = Returns ([], stream)).
Proof.
  split; [reflexivity|]. split; [reflexivity|]. split; [reflexivity|].
  split; [reflexivity|].
  split; [intros buf offset; apply checked_getters_short_circuit|].
  split; [intros offset buffer se; apply checked_getters_short_circuit|].
  intros stream C. apply constructed_pointer_set in C.
  destruct stream as [offset buffer [se|]]; [|discriminate C].
  apply checked_getters_short_circuit.
Qed.

(** A stream that read one byte and then failed on a long: the guarded
    getters still return at once. *)
Lemma constructed_streams_short_circuit_witness :
  let fault := errors_Wrap InsufficientBytes "Error reading bytes for long" in
  let stream :=
    mk_Stream 1 [1; 2] (Some (mk_streamErr (Some fault) 1 (Some [1; 2]))) in
  constructed stream /\
  Get stream (-1) = Returns ([], stream) /\
  GetUnsignedVarInt stream = Returns (0, stream) /\
  GetString stream = Returns ([], stream).
Proof.
  cbv zeta.
  destruct constructed_streams_short_circuit as (_ & _ & _ & _ & _ & _ & A).
  pose (s1 := mk_Stream 1 [1; 2] (Some (mk_streamErr None 0 (Some [1; 2])))).
  assert (C1 : constructed s1).
  { apply (constructed_call (NewGetStream [1; 2] 0)).
    - apply constructed_NewGetStream.
    - apply (call_get_with ReadByte (NewGetStream [1; 2] 0) 1 s1). reflexivity. }
  assert (C : constructed
                (mk_Stream 1 [1; 2]
                   (Some (mk_streamErr
                            (Some (errors_Wrap InsufficientBytes
                                     "Error reading bytes for long"))
                            1 (Some [1; 2]))))).
  { apply (constructed_call s1); [exact C1|].
    apply (call_get_with ReadLong s1 0). reflexivity. }
  split; [exact C|].
  destruct (A _ C) as (G & _ & _ & U & _ & S & _).
  split; [apply G | split; [exact U | exact S]].
Defined.

(** C3.  The claim is that once a getter has failed every later getter
    returns its zero value without touching the buffer or the offset, while
    putters keep appending.  On the stream over [[1; 2]], [GetInt] fails and
    records the fault; the next [GetByte] still reads: it returns 1 and
    moves the offset to 1.  A guarded getter ([GetUnsignedVarInt]) does
    return 0 in place, and [PutByte] does append. *)
Theorem fixed_width_getter_reads_after_fault :
  let s0 := NewGetStream [1; 2] 0 in
  let fault :=
    errors_Wrap InsufficientBytes "Error reading bytes for int" in
  let s1 := mk_Stream 0 [1; 2] (Some (mk_streamErr (Some fault) 0 (Some [1; 2]))) in
  GetInt s0 = Returns (0, s1) /\
  GetByte s1 = Returns (1, with_Offset s1 1) /\
  GetUnsignedVarInt s1 = Returns (0, s1) /\
  PutByte s1 9 = Returns (tt, with_Buffer s1 [1; 2; 9]).
Proof. cbv zeta. repeat split. Qed.

(** C5.  The claim is that a latched fault is never replaced by a later
    failure.  On the stream over [[7]], [GetShort] fails at offset 0 and
    records that; [GetByte] then reads the byte; the [GetInt] that follows
    fails at offset 1, and the stream now records the second error and
    offset 1 in place of the first error and offset 0. *)
Theorem later_failure_overwrites_fault :
  let s0 := NewGetStream [7] 0 in
  let first := errors_Wrap InsufficientBytes "Error reading bytes for short" in
  let second := errors_Wrap InsufficientBytes "Error reading bytes for int" in
  let s1 := mk_Stream 0 [7] (Some (mk_streamErr (Some first) 0 (Some [7]))) in
  let s2 := with_Offset s1 1 in
  let s3 := mk_Stream 1 [7] (Some (mk_streamErr (Some second) 1 (Some [7]))) in
  GetShort s0 = Returns (0, s1) /\
  GetByte s1 = Returns (7, s2) /\
  GetInt s2 = Returns (0, s3) /\
  option_map se_offset (err s1) = Some 0 /\
  option_map se_offset (err s3) = Some 1 /\
  option_map se_err (err s1) = Some (Some first) /\
  option_map se_err (err s3) = Some (Some second).
Proof. cbv zeta. repeat split. Qed.

(** With the nil pointer that only a struct literal can give, [Get] does
    read the remaining bytes but the last. *)
Lemma Get_remaining_nil_pointer (buffer : list Z) (offset length : Z) :
  valid_slice buffer -> 0 <= offset < len buffer -> length < 0 ->
  Get (mk_Stream offset buffer None) length =
    Returns (firstn (Z.to_nat (len buffer - offset - 1))
                    (skipn (Z.to_nat offset) buffer),
             mk_Stream (len buffer - 1) buffer None).
Proof.
  unfold valid_slice, max_int. intros Hv Ho Hl.
  unfold Get, get_with. cbn [err_not_nil err Buffer Offset].
  replace (length <? 0) with true by (symmetry; apply Z.ltb_lt; lia).
  rewrite (to_int_small (len buffer - offset))
    by (unfold is_int, min_int, max_int; lia).
  rewrite to_int_small by (unfold is_int, min_int, max_int; lia).
  rewrite Read_contract by (unfold max_int; lia).
  replace (len buffer <? offset + (len buffer - offset - 1)) with false
    by (symmetry; apply Z.ltb_ge; lia).
  cbn [bind]. unfold with_Offset. cbn [err Buffer Offset].
  replace (offset + (len buffer - offset - 1)) with (len buffer - 1) by lia.
  reflexivity.
Qed.

(** At the end of the buffer the sentinel length is -1 and the slice
    expression panics. *)
Lemma Get_remaining_at_end_panics (buffer : list Z) (length : Z) :
  valid_slice buffer -> length < 0 ->
  Get (mk_Stream (len buffer) buffer None) length = Panics.
Proof.
  unfold valid_slice, max_int. intros Hv Hl.
  pose proof (len_nonneg buffer) as Hn.
  unfold Get, get_with, Read, slice. cbn [err_not_nil err Buffer Offset].
  replace (length <? 0) with true by (symmetry; apply Z.ltb_lt; lia).
  replace (len buffer - len buffer) with 0 by lia.
  change (to_int (to_int 0 - 1)) with (-1).
  rewrite to_int_small by (unfold is_int, min_int, max_int; lia).
  replace (len buffer <? len buffer + -1) with false
    by (symmetry; apply Z.ltb_ge; lia).
  replace (len buffer <=? len buffer + -1) with false
    by (symmetry; apply Z.leb_gt; lia).
  rewrite andb_false_r. reflexivity.
Qed.

(** C9.  The claim is that on a stream with no latched fault [Get] with a
    negative length returns the [len(Buffer) - Offset - 1] bytes at the
    offset and advances by that amount.  On the fresh stream over
    [[1; 2; 3]] no fault is recorded and that count is 2, yet [Get (-1)]
    returns nil and leaves the offset at 0: the guard tests the pointer,
    which the constructors always set. *)
Theorem Get_negative_on_fresh_stream :
  let stream := NewGetStream [1; 2; 3] 0 in
  (exists se, err stream = Some se /\ se_err se = None) /\
  len (Buffer stream) - Offset stream - 1 = 2 /\
  Get stream (-1) = Returns ([], stream).
Proof.
  cbv zeta. split; [|split]; try reflexivity.
  eexists. split; reflexivity.
Qed.

(** C10.  [Feof] is true exactly when the offset is at least
    [len(Buffer) - 1], so a stream standing on its last byte already counts
    as at its end; the call leaves the stream as it was and its answer does
    not depend on the fault. *)
Theorem Feof_off_by_one (stream : Stream) :
  valid_slice (Buffer stream) ->
  (fst (Feof stream) = true <-> Offset stream >= len (Buffer stream) - 1) /\
  snd (Feof stream) = stream /\
  (forall e, fst (Feof (mk_Stream (Offset stream) (Buffer stream) e)) =
             fst (Feof stream)).
Proof.
  unfold valid_slice, max_int. intros Hv.
  pose proof (len_nonneg (Buffer stream)) as Hl.
  unfold Feof. cbn [fst snd Offset Buffer].
  rewrite to_int_small by (unfold is_int, min_int, max_int; lia).
  repeat split; try reflexivity.
  - intros H. apply Z.geb_le in H. lia.
  - intros H. apply Z.geb_le. lia.
Qed.

Lemma Feof_off_by_one_witness :
  (fst (Feof (NewGetStream [1; 2; 3] 2)) = true <-> 2 >= 3 - 1) /\
  snd (Feof (NewGetStream [1; 2; 3] 2)) = NewGetStream [1; 2; 3] 2 /\
  (forall e, fst (Feof (mk_Stream 2 [1; 2; 3] e)) =
             fst (Feof (NewGetStream [1; 2; 3] 2))).
Proof.
  apply (Feof_off_by_one (NewGetStream [1; 2; 3] 2)).
  unfold valid_slice, len, max_int. cbn. lia.
Defined.

(** * Further properties of the codec and the stream *)

(** ** Round trips of the variable-length integers *)

(** The loop test of the writers, as a comparison. *)
Lemma high_bits_zero_small (w value : Z) :
  7 <= w -> 0 <= value < 2 ^ w ->
  Z.land value (wrap_unsigned w (-128)) = 0 -> value < 2 ^ 7.
Proof.
  intros Hw Hv H.
  destruct (Z.lt_ge_cases value (2 ^ 7)) as [Hlt | Hge]; [exact Hlt | exfalso].
  assert (Hpos : 0 < value) by lia.
  pose proof (Z.bit_log2 value Hpos) as Hbit.
  assert (L1 : 7 <= Z.log2 value) by (apply Z.log2_le_pow2; lia).
  assert (L2 : Z.log2 value < w) by (apply Z.log2_lt_pow2; lia).
  assert (E : Z.testbit (Z.land value (wrap_unsigned w (-128))) (Z.log2 value)
              = true).
  { rewrite Z.land_spec, Hbit. unfold wrap_unsigned.
    rewrite Z.testbit_mod_pow2 by lia.
    replace (-128) with (Z.shiftl (-1) 7) by reflexivity.
    rewrite Z.shiftl_spec by lia.
    rewrite Z.testbit_minus1 by lia.
    replace (Z.log2 value <? w) with true by (symmetry; apply Z.ltb_lt; lia).
    reflexivity. }
  rewrite H, Z.bits_0 in E. discriminate E.
Qed.

(** A continuation group: the low seven bits with the top bit set. *)
Lemma group_byte (v : Z) :
  0 <= v -> to_byte (Z.lor (Z.land v 0x7F) 0x80) = v mod 2 ^ 7 + 2 ^ 7.
Proof.
  intros Hv. change 0x7F with (Z.ones 7). rewrite Z.land_ones by lia.
  pose proof (Z.mod_pos_bound v (2 ^ 7) ltac:(lia)) as B.
  change 0x80 with (Z.shiftl 1 7).
  rewrite lor_shiftl_add by lia.
  unfold to_byte, wrap_unsigned. rewrite Z.mod_small; lia.
Qed.

Lemma group_low_bits (g : Z) :
  0 <= g < 2 ^ 7 -> Z.land (g + 2 ^ 7) 0x7f = g /\
                    negb (Z.land (g + 2 ^ 7) 0x80 =? 0) = true.
Proof.
  intros Hg. split.
  - change 0x7f with (Z.ones 7). rewrite Z.land_ones by lia.
    replace (g + 2 ^ 7) with (g + 1 * 2 ^ 7) by lia.
    rewrite Z.mod_add by lia. apply Z.mod_small. lia.
  - replace (Z.land (g + 2 ^ 7) 0x80) with (2 ^ 7); [reflexivity|].
    symmetry. apply Z.bits_inj'. intros n Hn.
    rewrite Z.land_spec. change 0x80 with (2 ^ 7).
    replace (g + 2 ^ 7) with (g + 1 * 2 ^ 7) by lia.
    rewrite <- (lor_shiftl_add g 1 7) by lia.
    rewrite Z.lor_spec, Z.shiftl_spec by lia.
    rewrite !Z.pow2_bits_eqb by lia.
    destruct (Z.eqb_spec 7 n) as [<- | Hne].
    + rewrite orb_true_r. reflexivity.
    + apply andb_false_r.
Qed.

Lemma last_group_bits (v : Z) :
  0 <= v < 2 ^ 7 -> Z.land v 0x7f = v /\ negb (Z.land v 0x80 =? 0) = false.
Proof.
  intros Hv. split.
  - change 0x7f with (Z.ones 7). rewrite Z.land_ones by lia.
    apply Z.mod_small. lia.
  - replace (Z.land v 0x80) with 0; [reflexivity|].
    symmetry. apply Z.bits_inj'. intros n Hn.
    rewrite Z.land_spec, Z.bits_0. change 0x80 with (2 ^ 7).
    rewrite Z.pow2_bits_eqb by lia.
    destruct (Z.eqb_spec 7 n) as [<- | Hne]; [|apply andb_false_r].
    rewrite (testbit_small 7 v 7) by lia. reflexivity.
Qed.

(** Or-ing the next group in, when nothing overflows the word. *)
Lemma add_group (w result g j : Z) :
  0 <= j -> 0 <= result < 2 ^ (7 * j) -> 0 <= g ->
  result + g * 2 ^ (7 * j) < 2 ^ w ->
  Z.lor result (wrap_unsigned w (Z.shiftl g (j * 7))) = result + g * 2 ^ (7 * j).
Proof.
  intros Hj Hr Hg Hlt. replace (j * 7) with (7 * j) by lia.
  assert (P : 0 < 2 ^ (7 * j)) by (apply Z.pow_pos_nonneg; lia).
  unfold wrap_unsigned. rewrite Z.shiftl_mul_pow2 by lia.
  rewrite Z.mod_small by nia.
  rewrite <- (Z.shiftl_mul_pow2 g (7 * j)) at 1 by lia.
  apply lor_shiftl_add; lia.
Qed.

Lemma pow_7_succ (j : Z) : 0 <= j -> 2 ^ (7 * (j + 1)) = 2 ^ 7 * 2 ^ (7 * j).
Proof.
  intros Hj. replace (7 * (j + 1)) with (7 + 7 * j) by lia.
  apply Z.pow_add_r; lia.
Qed.

Lemma nth_middle_Z (X : list Z) (g : Z) (rest : list Z) :
  nth (Z.to_nat (len X)) (X ++ g :: rest) 0 = g.
Proof. unfold len. rewrite Nat2Z.id. apply nth_middle. Qed.

Lemma valid_slice_len (B : list Z) : valid_slice B -> len B <= max_int.
Proof. exact (fun H => H). Qed.

Lemma WriteUnsignedVarInt_loop_step (fuel : nat) (buffer : list Z) (value : Z) :
  WriteUnsignedVarInt_loop (S fuel) buffer value =
    if negb (Z.land value (to_uint32 (-128)) =? 0)
    then WriteUnsignedVarInt_loop fuel
           (Write buffer (to_byte (Z.lor (Z.land value 0x7F) 0x80)))
           (Z.shiftr value 7)
    else Returns (Write buffer (to_byte value)).
Proof. reflexivity. Qed.

(** Decoding what the 32-bit write loop produced, from any state of the
    read loop that has room for it. *)
Lemma ReadUnsignedVarInt_loop_written (n : nat) :
  forall (X : list Z) (v result j : Z) (fuel : nat) (B post : list Z),
    0 <= v < 2 ^ (7 * Z.of_nat (S n)) ->
    0 <= j -> j + Z.of_nat (S n) <= 5 -> (S n <= fuel)%nat ->
    0 <= result < 2 ^ (7 * j) ->
    result + v * 2 ^ (7 * j) < 2 ^ 32 ->
    WriteUnsignedVarInt_loop (S n) X v = Returns B ->
    valid_slice (B ++ post) ->
    ReadUnsignedVarInt_loop fuel (B ++ post) (len X) result j =
      Returns (result + v * 2 ^ (7 * j), None, len B).
Proof.
  induction n as [|n IH];
    intros X v result j fuel B post Hv Hj Hn Hf Hr Hsum HW HB;
    (destruct fuel as [|fuel]; [lia|]);
    assert (P : 0 < 2 ^ (7 * j)) by (apply Z.pow_pos_nonneg; lia);
    assert (Hvw : 0 <= v < 2 ^ 32) by nia;
    rewrite WriteUnsignedVarInt_loop_step in HW; unfold to_uint32 in HW.
  - rewrite low_seven_bits in HW by (cbn in Hv; lia). cbn [Z.eqb negb] in HW.
    inversion HW; subst B; clear HW. unfold Write in *.
    rewrite to_byte_small in * by (unfold is_byte; cbn in Hv; lia).
    cbn [ReadUnsignedVarInt_loop].
    rewrite <- app_assoc in *. cbn [app] in *.
    rewrite Read_one
      by (try assumption; rewrite len_app; unfold len; cbn [List.length]; lia).
    cbn [bind]. unfold index. cbn [nth]. rewrite nth_middle_Z.
    replace (v <? 0) with false by (symmetry; apply Z.ltb_ge; lia).
    destruct (last_group_bits v ltac:(cbn in Hv; lia)) as [L C].
    rewrite L, C. unfold shl32, to_uint32 at 1.
    rewrite (add_group 32) by lia.
    unfold to_uint32. rewrite (wrap_unsigned_small 32 (j + 1)) by lia.
    destruct (Z.gtb_spec (j + 1) 5) as [G | G]; [lia|].
    rewrite len_app. reflexivity.
  - destruct (Z.eqb_spec (Z.land v (wrap_unsigned 32 (-128))) 0) as [E | E];
      cbn [negb] in HW.
    + (* the value fits one group: same as the base case *)
      apply high_bits_zero_small in E; [|lia|lia].
      inversion HW; subst B; clear HW. unfold Write in *.
      rewrite to_byte_small in * by (unfold is_byte; lia).
      cbn [ReadUnsignedVarInt_loop].
      rewrite <- app_assoc in *. cbn [app] in *.
      rewrite Read_one
        by (try assumption; rewrite len_app; unfold len; cbn [List.length]; lia).
      cbn [bind]. unfold index. cbn [nth]. rewrite nth_middle_Z.
      replace (v <? 0) with false by (symmetry; apply Z.ltb_ge; lia).
      destruct (last_group_bits v ltac:(lia)) as [L C].
      rewrite L, C. unfold shl32, to_uint32 at 1.
      rewrite (add_group 32) by lia.
      unfold to_uint32. rewrite (wrap_unsigned_small 32 (j + 1)) by lia.
      destruct (Z.gtb_spec (j + 1) 5) as [G | G]; [lia|].
      rewrite len_app. reflexivity.
    + rewrite group_byte in HW by lia. unfold Write in HW.
      pose proof (Z.mod_pos_bound v (2 ^ 7) ltac:(lia)) as Hg.
      pose proof (shiftr_7_bound v (S n) Hv) as Hv'.
      destruct (WriteUnsignedVarInt_loop_appends n
                  (X ++ [v mod 2 ^ 7 + 2 ^ 7]) (Z.shiftr v 7) Hv')
        as (enc & Eenc & _).
      assert (EB : B = X ++ (v mod 2 ^ 7 + 2 ^ 7) :: enc).
      { rewrite Eenc in HW. inversion HW. rewrite <- app_assoc. reflexivity. }
      cbn [ReadUnsignedVarInt_loop].
      assert (LB : len X < len (B ++ post)).
      { rewrite EB, !len_app. unfold len. cbn [List.length]. lia. }
      rewrite Read_one by (try assumption; pose proof (len_nonneg X); lia).
      cbn [bind]. unfold index. cbn [nth].
      replace (nth (Z.to_nat (len X)) (B ++ post) 0) with (v mod 2 ^ 7 + 2 ^ 7)
        by (rewrite EB, <- app_assoc; cbn [app]; symmetry; apply nth_middle_Z).
      replace (v mod 2 ^ 7 + 2 ^ 7 <? 0) with false
        by (symmetry; apply Z.ltb_ge; lia).
      destruct (group_low_bits (v mod 2 ^ 7) Hg) as [L C].
      rewrite L, C. unfold shl32, to_uint32 at 1.
      assert (D : v = 2 ^ 7 * (v / 2 ^ 7) + v mod 2 ^ 7)
        by (apply Z.div_mod; lia).
      assert (Q : 0 <= v / 2 ^ 7) by (apply Z.div_pos; lia).
      rewrite (add_group 32) by nia.
      unfold to_uint32. rewrite (wrap_unsigned_small 32 (j + 1)) by lia.
      destruct (Z.gtb_spec (j + 1) 5) as [G | G]; [lia|].
      replace (len X + 1) with (len (X ++ [v mod 2 ^ 7 + 2 ^ 7]))
        by (rewrite len_app; reflexivity).
      rewrite (IH (X ++ [v mod 2 ^ 7 + 2 ^ 7]) (Z.shiftr v 7)
                 (result + v mod 2 ^ 7 * 2 ^ (7 * j)) (j + 1) fuel B post);
        try assumption; try lia.
      * f_equal. f_equal. f_equal.
        rewrite Z.shiftr_div_pow2, pow_7_succ by lia. nia.
      * rewrite pow_7_succ by lia. nia.
      * rewrite Z.shiftr_div_pow2, pow_7_succ by lia. nia.
Qed.

Lemma WriteUnsignedVarLong_loop_step (fuel : nat) (buffer : list Z) (value : Z) :
  WriteUnsignedVarLong_loop (S fuel) buffer value =
    if negb (Z.land value (to_uint64 (-128)) =? 0)
    then WriteUnsignedVarLong_loop fuel
           (Write buffer (to_byte (Z.lor (Z.land value 0x7F) 0x80)))
           (Z.shiftr value 7)
    else Returns (Write buffer (to_byte value)).
Proof. reflexivity. Qed.

(** Decoding what the 64-bit write loop produced, from any state of the
    read loop that has room for it. *)
Lemma ReadUnsignedVarLong_loop_written (n : nat) :
  forall (X : list Z) (v result j : Z) (fuel : nat) (B post : list Z),
    0 <= v < 2 ^ (7 * Z.of_nat (S n)) ->
    0 <= j -> j + Z.of_nat (S n) <= 10 -> (S n <= fuel)%nat ->
    0 <= result < 2 ^ (7 * j) ->
    result + v * 2 ^ (7 * j) < 2 ^ 64 ->
    WriteUnsignedVarLong_loop (S n) X v = Returns B ->
    valid_slice (B ++ post) ->
    ReadUnsignedVarLong_loop fuel (B ++ post) (len X) result j =
      Returns (result + v * 2 ^ (7 * j), None, len B).
Proof.
  induction n as [|n IH];
    intros X v result j fuel B post Hv Hj Hn Hf Hr Hsum HW HB;
    (destruct fuel as [|fuel]; [lia|]);
    assert (P : 0 < 2 ^ (7 * j)) by (apply Z.pow_pos_nonneg; lia);
    assert (Hvw : 0 <= v < 2 ^ 64) by nia;
    rewrite WriteUnsignedVarLong_loop_step in HW; unfold to_uint64 in HW.
  - rewrite low_seven_bits in HW by (cbn in Hv; lia). cbn [Z.eqb negb] in HW.
    inversion HW; subst B; clear HW. unfold Write in *.
    rewrite to_byte_small in * by (unfold is_byte; cbn in Hv; lia).
    cbn [ReadUnsignedVarLong_loop].
    rewrite <- app_assoc in *. cbn [app] in *.
    rewrite Read_one
      by (try assumption; rewrite len_app; unfold len; cbn [List.length]; lia).
    cbn [bind]. unfold index. cbn [nth]. rewrite nth_middle_Z.
    replace (v <? 0) with false by (symmetry; apply Z.ltb_ge; lia).
    destruct (last_group_bits v ltac:(cbn in Hv; lia)) as [L C].
    rewrite L, C. unfold shl64, to_uint64 at 1.
    rewrite (add_group 64) by lia.
    unfold to_uint64. rewrite (wrap_unsigned_small 64 (j + 1)) by lia.
    destruct (Z.gtb_spec (j + 1) 10) as [G | G]; [lia|].
    rewrite len_app. reflexivity.
  - destruct (Z.eqb_spec (Z.land v (wrap_unsigned 64 (-128))) 0) as [E | E];
      cbn [negb] in HW.
    + (* the value fits one group: same as the base case *)
      apply high_bits_zero_small in E; [|lia|lia].
      inversion HW; subst B; clear HW. unfold Write in *.
      rewrite to_byte_small in * by (unfold is_byte; lia).
      cbn [ReadUnsignedVarLong_loop].
      rewrite <- app_assoc in *. cbn [app] in *.
      rewrite Read_one
        by (try assumption; rewrite len_app; unfold len; cbn [List.length]; lia).
      cbn [bind]. unfold index. cbn [nth]. rewrite nth_middle_Z.
      replace (v <? 0) with false by (symmetry; apply Z.ltb_ge; lia).
      destruct (last_group_bits v ltac:(lia)) as [L C].
      rewrite L, C. unfold shl64, to_uint64 at 1.
      rewrite (add_group 64) by lia.
      unfold to_uint64. rewrite (wrap_unsigned_small 64 (j + 1)) by lia.
      destruct (Z.gtb_spec (j + 1) 10) as [G | G]; [lia|].
      rewrite len_app. reflexivity.
    + rewrite group_byte in HW by lia. unfold Write in HW.
      pose proof (Z.mod_pos_bound v (2 ^ 7) ltac:(lia)) as Hg.
      pose proof (shiftr_7_bound v (S n) Hv) as Hv'.
      destruct (WriteUnsignedVarLong_loop_appends n
                  (X ++ [v mod 2 ^ 7 + 2 ^ 7]) (Z.shiftr v 7) Hv')
        as (enc & Eenc & _).
      assert (EB : B = X ++ (v mod 2 ^ 7 + 2 ^ 7) :: enc).
      { rewrite Eenc in HW. inversion HW. rewrite <- app_assoc. reflexivity. }
      cbn [ReadUnsignedVarLong_loop].
      assert (LB : len X < len (B ++ post)).
      { rewrite EB, !len_app. unfold len. cbn [List.length]. lia. }
      rewrite Read_one by (try assumption; pose proof (len_nonneg X); lia).
      cbn [bind]. unfold index. cbn [nth].
      replace (nth (Z.to_nat (len X)) (B ++ post) 0) with (v mod 2 ^ 7 + 2 ^ 7)
        by (rewrite EB, <- app_assoc; cbn [app]; symmetry; apply nth_middle_Z).
      replace (v mod 2 ^ 7 + 2 ^ 7 <? 0) with false
        by (symmetry; apply Z.ltb_ge; lia).
      destruct (group_low_bits (v mod 2 ^ 7) Hg) as [L C].
      rewrite L, C. unfold shl64, to_uint64 at 1.
      assert (D : v = 2 ^ 7 * (v / 2 ^ 7) + v mod 2 ^ 7)
        by (apply Z.div_mod; lia).
      assert (Q : 0 <= v / 2 ^ 7) by (apply Z.div_pos; lia).
      rewrite (add_group 64) by nia.
      unfold to_uint64. rewrite (wrap_unsigned_small 64 (j + 1)) by lia.
      destruct (Z.gtb_spec (j + 1) 10) as [G | G]; [lia|].
      replace (len X + 1) with (len (X ++ [v mod 2 ^ 7 + 2 ^ 7]))
        by (rewrite len_app; reflexivity).
      rewrite (IH (X ++ [v mod 2 ^ 7 + 2 ^ 7]) (Z.shiftr v 7)
                 (result + v mod 2 ^ 7 * 2 ^ (7 * j)) (j + 1) fuel B post);
        try assumption; try lia.
      * f_equal. f_equal. f_equal.
        rewrite Z.shiftr_div_pow2, pow_7_succ by lia. nia.
      * rewrite pow_7_succ by lia. nia.
      * rewrite Z.shiftr_div_pow2, pow_7_succ by lia. nia.
Qed.

Lemma ReadUnsignedVarInt_written (buffer : list Z) (v : Z) :
  is_uint32 v ->
  exists enc,
    WriteUnsignedVarInt buffer v = Returns (buffer ++ enc) /\
    1 <= len enc <= 5 /\
    forall post,
      valid_slice (buffer ++ enc ++ post) ->
      ReadUnsignedVarInt (buffer ++ enc ++ post) (len buffer) =
        Returns (v, None, len buffer + len enc).
Proof.
  intros Hv. unfold is_uint32 in Hv.
  destruct (WriteUnsignedVarInt_appends buffer v Hv) as (enc & E & L).
  exists enc. split; [exact E|]. split; [exact L|].
  intros post HB. rewrite app_assoc in *.
  unfold ReadUnsignedVarInt, WriteUnsignedVarInt in *.
  rewrite (ReadUnsignedVarInt_loop_written 4 buffer v 0 0 6 (buffer ++ enc) post);
    try assumption; try (cbn; lia).
  rewrite len_app. f_equal. f_equal. f_equal. cbn. lia.
Qed.

Lemma ReadUnsignedVarLong_written (buffer : list Z) (v : Z) :
  is_uint64 v ->
  exists enc,
    WriteUnsignedVarLong buffer v = Returns (buffer ++ enc) /\
    1 <= len enc <= 10 /\
    forall post,
      valid_slice (buffer ++ enc ++ post) ->
      ReadUnsignedVarLong (buffer ++ enc ++ post) (len buffer) =
        Returns (v, None, len buffer + len enc).
Proof.
  intros Hv. unfold is_uint64 in Hv.
  destruct (WriteUnsignedVarLong_appends buffer v Hv) as (enc & E & L).
  exists enc. split; [exact E|]. split; [exact L|].
  intros post HB. rewrite app_assoc in *.
  unfold ReadUnsignedVarLong, WriteUnsignedVarLong in *.
  rewrite (ReadUnsignedVarLong_loop_written 9 buffer v 0 0 11 (buffer ++ enc) post);
    try assumption; try (cbn; lia).
  rewrite len_app. f_equal. f_equal. f_equal. cbn. lia.
Qed.

(** X7.  [WriteUnsignedVarInt] appends between one and five bytes for every
    uint32, and [ReadUnsignedVarInt] at the start of those bytes returns
    the value and stops just past them, whatever follows in the buffer. *)
Theorem unsigned_varint_round_trip (buffer : list Z) (v : Z) :
  is_uint32 v ->
  exists enc,
    WriteUnsignedVarInt buffer v = Returns (buffer ++ enc) /\
    1 <= len enc <= 5 /\
    forall post,
      valid_slice (buffer ++ enc ++ post) ->
      ReadUnsignedVarInt (buffer ++ enc ++ post) (len buffer) =
        Returns (v, None, len buffer + len enc).
Proof. exact (ReadUnsignedVarInt_written buffer v). Qed.

(** X8.  [WriteUnsignedVarLong] appends between one and ten bytes for every
    uint64, and [ReadUnsignedVarLong] at the start of those bytes returns
    the value and stops just past them, whatever follows in the buffer. *)
Theorem unsigned_varlong_round_trip (buffer : list Z) (v : Z) :
  is_uint64 v ->
  exists enc,
    WriteUnsignedVarLong buffer v = Returns (buffer ++ enc) /\
    1 <= len enc <= 10 /\
    forall post,
      valid_slice (buffer ++ enc ++ post) ->
      ReadUnsignedVarLong (buffer ++ enc ++ post) (len buffer) =
        Returns (v, None, len buffer + len enc).
Proof. exact (ReadUnsignedVarLong_written buffer v). Qed.

(** X9.  [ReadVarInt] returns what [WriteVarInt] wrote for every int32, and
    [ReadVarLong] what [WriteVarLong] wrote for every int64, stopping just
    past the encoding. *)
Theorem signed_varint_round_trip :
  (forall buffer v,
      is_int32 v ->
      exists enc,
        WriteVarInt buffer v = Returns (buffer ++ enc) /\
        1 <= len enc <= 5 /\
        forall post,
          valid_slice (buffer ++ enc ++ post) ->
          ReadVarInt (buffer ++ enc ++ post) (len buffer) =
            Returns (v, None, len buffer + len enc)) /\
  (forall buffer v,
      is_int64 v ->
      exists enc,
        WriteVarLong buffer v = Returns (buffer ++ enc) /\
        1 <= len enc <= 10 /\
        forall post,
          valid_slice (buffer ++ enc ++ post) ->
          ReadVarLong (buffer ++ enc ++ post) (len buffer) =
            Returns (v, None, len buffer + len enc)).
Proof.
  split; intros buffer v Hv.
  - destruct (ReadUnsignedVarInt_written buffer (toZigZag32 v))
      as (enc & E & L & R); [apply to_uint32_range|].
    exists enc. split; [exact E|]. split; [exact L|].
    intros post HB. unfold ReadVarInt. rewrite (R post HB). cbn [bind].
    rewrite fromZigZag32_toZigZag32 by exact Hv. reflexivity.
  - destruct (ReadUnsignedVarLong_written buffer (toZigZag64 v))
      as (enc & E & L & R); [apply to_uint64_range|].
    exists enc. split; [exact E|]. split; [exact L|].
    intros post HB. unfold ReadVarLong. rewrite (R post HB). cbn [bind].
    rewrite fromZigZag64_toZigZag64 by exact Hv. reflexivity.
Qed.

Lemma firstn_skipn_middle_Z (pre mid post : list Z) :
  firstn (Z.to_nat (len mid)) (skipn (Z.to_nat (len pre)) (pre ++ mid ++ post))
  = mid.
Proof.
  unfold len. rewrite !Nat2Z.id.
  rewrite skipn_app, skipn_all, Nat.sub_diag. cbn [skipn app].
  rewrite firstn_app, firstn_all, Nat.sub_diag. cbn [firstn].
  apply app_nil_r.
Qed.

Lemma ReadString_written (buffer str : list Z) :
  len str < 2 ^ 32 ->
  exists enc,
    WriteString buffer str = Returns (buffer ++ enc ++ str) /\
    1 <= len enc <= 5 /\
    forall post,
      valid_slice (buffer ++ enc ++ str ++ post) ->
      ReadString (buffer ++ enc ++ str ++ post) (len buffer) =
        Returns (str, None, len buffer + len enc + len str).
Proof.
  intros Hl. pose proof (len_nonneg str) as Hn.
  assert (Hu : is_uint32 (len str)) by (unfold is_uint32; lia).
  destruct (ReadUnsignedVarInt_written buffer (len str) Hu) as (enc & E & L & R).
  exists enc. unfold WriteString.
  rewrite (wrap_unsigned_small 32 (len str) Hu : to_uint32 (len str) = len str).
  rewrite E. cbn [bind]. rewrite <- app_assoc.
  split; [reflexivity|]. split; [exact L|].
  intros post HB. unfold ReadString. rewrite (R (str ++ post) HB). cbn [bind].
  pose proof (len_nonneg buffer) as Hb.
  assert (HB' := HB). unfold valid_slice in HB'. rewrite !len_app in HB'.
  pose proof (len_nonneg post) as Hp.
  rewrite to_int_small by (unfold is_int, min_int, max_int in *; lia).
  rewrite Read_contract by (rewrite ?len_app; lia).
  replace (len (buffer ++ enc ++ str ++ post) <? len buffer + len enc + len str)
    with false by (symmetry; apply Z.ltb_ge; rewrite !len_app; lia).
  rewrite <- len_app.
  replace (buffer ++ enc ++ str ++ post) with ((buffer ++ enc) ++ str ++ post)
    by (rewrite <- app_assoc; reflexivity).
  rewrite firstn_skipn_middle_Z. reflexivity.
Qed.

(** X12.  For a string shorter than 2^32 bytes, [WriteString] appends a
    varint length and the bytes, and [ReadString] at the start of them
    returns the string and stops just past it, whatever follows. *)
Theorem string_round_trip (buffer str : list Z) :
  len str < 2 ^ 32 ->
  exists enc,
    WriteString buffer str = Returns (buffer ++ enc ++ str) /\
    1 <= len enc <= 5 /\
    forall post,
      valid_slice (buffer ++ enc ++ str ++ post) ->
      ReadString (buffer ++ enc ++ str ++ post) (len buffer) =
        Returns (str, None, len buffer + len enc + len str).
Proof. exact (ReadString_written buffer str). Qed.

(** ** The generic read, inside and outside its domain *)

(** X1.  Wherever [offset + length] is an [int], with the offset inside the
    buffer and the length not negative, [Read] fails with
    [InsufficientBytes] and leaves the offset alone when the sum passes the
    end of the buffer, and otherwise returns the [length] bytes at the
    offset and moves the offset by [length]. *)
Theorem Read_within_int (buffer : list Z) (offset length : Z) :
  0 <= offset <= len buffer -> 0 <= length -> offset + length <= max_int ->
  (len buffer < offset + length ->
   Read buffer offset length = Returns ([], Some InsufficientBytes, offset)) /\
  (offset + length <= len buffer ->
   exists b,
     Read buffer offset length = Returns (b, None, offset + length) /\
     len b = length /\
     b = firstn (Z.to_nat length) (skipn (Z.to_nat offset) buffer)).
Proof.
  intros Ho Hl Hmax. rewrite Read_contract by assumption. split; intros H.
  - replace (len buffer <? offset + length) with true
      by (symmetry; apply Z.ltb_lt; lia).
    reflexivity.
  - replace (len buffer <? offset + length) with false
      by (symmetry; apply Z.ltb_ge; lia).
    eexists. split; [reflexivity|]. split; [|reflexivity].
    unfold len in *. rewrite length_firstn, length_skipn. lia.
Qed.

Lemma Read_within_int_witness :
  Read [1; 2; 3] 1 3 = Returns ([], Some InsufficientBytes, 1) /\
  exists b, Read [1; 2; 3] 1 2 = Returns (b, None, 1 + 2) /\ len b = 2 /\
            b = firstn (Z.to_nat 2) (skipn (Z.to_nat 1) [1; 2; 3]).
Proof.
  split.
  - apply (Read_within_int [1; 2; 3] 1 3);
      unfold len, max_int; cbn [List.length Z.of_nat]; lia.
  - apply (Read_within_int [1; 2; 3] 1 2);
      unfold len, max_int; cbn [List.length Z.of_nat]; lia.
Defined.

(** X2.  [Read] does not check its arguments: a negative length at an
    offset inside the buffer, or a negative offset with a length that stays
    inside the buffer, passes the guard and panics in the slice
    expression; no error is returned. *)
Theorem Read_outside_panics (buffer : list Z) (offset length : Z) :
  valid_slice buffer -> min_int <= length -> offset <= max_int ->
  (0 <= offset <= len buffer -> length < 0 ->
   Read buffer offset length = Panics) /\
  (min_int <= offset < 0 -> 0 <= length -> offset + length <= len buffer ->
   Read buffer offset length = Panics).
Proof.
  unfold valid_slice, min_int, max_int. intros Hv Hl Ho.
  pose proof (len_nonneg buffer) as Hn.
  split.
  - intros Hin Hneg. unfold Read, slice.
    rewrite to_int_small by (unfold is_int, min_int, max_int; lia).
    replace (len buffer <? offset + length) with false
      by (symmetry; apply Z.ltb_ge; lia).
    replace (offset <=? offset + length) with false
      by (symmetry; apply Z.leb_gt; lia).
    rewrite andb_false_r. reflexivity.
  - intros Hneg Hpos Hlen. unfold Read, slice.
    rewrite to_int_small by (unfold is_int, min_int, max_int; lia).
    replace (len buffer <? offset + length) with false
      by (symmetry; apply Z.ltb_ge; lia).
    replace (0 <=? offset) with false by (symmetry; apply Z.leb_gt; lia).
    reflexivity.
Qed.

Lemma Read_outside_panics_witness :
  Read [1; 2; 3] 1 (-1) = Panics /\ Read [1; 2; 3] (-1) 2 = Panics.
Proof.
  assert (V : valid_slice [1; 2; 3])
    by (unfold valid_slice, len, max_int; cbn [List.length Z.of_nat]; lia).
  split.
  - refine (proj1 (Read_outside_panics [1; 2; 3] 1 (-1) V _ _) _ _);
      unfold len, min_int, max_int; cbn [List.length Z.of_nat]; lia.
  - refine (proj2 (Read_outside_panics [1; 2; 3] (-1) 2 V _ _) _ _ _);
      unfold len, min_int, max_int; cbn [List.length Z.of_nat]; lia.
Defined.

(** ** Every fixed-width reader at once *)

Lemma to_int_add_inv (offset n o : Z) :
  0 <= offset <= o -> 0 <= n <= max_int -> o = to_int (offset + n) ->
  o = offset + n.
Proof.
  unfold to_int, wrap_signed, max_int. change (64 - 1) with 63. intros Ho Hn E.
  pose proof (Z.div_mod (offset + n + 2 ^ 63) (2 ^ 64) ltac:(lia)) as D.
  pose proof (Z.mod_pos_bound (offset + n + 2 ^ 63) (2 ^ 64) ltac:(lia)) as B.
  lia.
Qed.

(** What [Read] can return for a length that is an [int] and not
    negative. *)
Lemma Read_inv_length (buffer : list Z) (offset length : Z) b e o :
  0 <= length <= max_int ->
  Read buffer offset length = Returns (b, e, o) ->
  (b = [] /\ e = Some InsufficientBytes /\ o = offset)
  \/
  (e = None /\ 0 <= offset /\ o = offset + length /\ o <= len buffer /\
   len b = length).
Proof.
  intros Hl H. apply Read_inv in H.
  destruct H as [(_ & -> & -> & ->) | (Ho & Hlen & E & -> & ->)].
  - left. auto.
  - right. pose proof (to_int_add_inv offset length o Ho Hl E) as ->.
    repeat split; try lia.
    replace (offset + length - offset) with length by lia.
    unfold len in *. rewrite length_firstn, length_skipn. lia.
Qed.

Ltac read_cases H :=
  match type of H with
  | context [Read ?buffer ?offset ?n] =>
      let ER := fresh "ER" in
      destruct (Read buffer offset n) as [[[? ?] ?]| |] eqn:ER;
      cbn [bind] in H; try discriminate H;
      apply Read_inv_length in ER; [|unfold max_int; lia];
      destruct ER as [(-> & -> & ->) | (-> & ? & -> & ? & ?)];
      inversion H; subst; clear H
  end.

(** X3.  Whenever a fixed-width reader returns, for any buffer and any
    offset, it has either failed, with the zero value, an error wrapping
    [InsufficientBytes] and the offset unchanged, or succeeded with the
    offset moved by exactly the width of the kind and still inside the
    buffer. *)
Theorem fixed_width_read_outcomes (k : Kind) (buffer : list Z) (offset : Z)
    (v : kind_type k) (e : option error) (offset' : Z) :
  read_kind k buffer offset = Returns (v, e, offset') ->
  (v = zero_value k /\ offset' = offset /\
   exists msg, e = Some (errors_Wrap InsufficientBytes msg))
  \/
  (e = None /\ 0 <= offset /\ offset' = offset + width k /\
   offset' <= len buffer).
Proof.
  intros H.
  destruct k; cbn [read_kind kind_type zero_value width] in *;
    cbv [ReadBool ReadByte ReadUnsignedByte ReadShort ReadUnsignedShort ReadInt
         ReadUnsignedInt ReadLong ReadUnsignedLong ReadFloat ReadDouble
         ReadLittleShort ReadLittleUnsignedShort ReadLittleInt
         ReadLittleUnsignedInt ReadLittleLong ReadLittleUnsignedLong
         ReadLittleFloat ReadLittleDouble] in H;
    read_cases H;
    solve [ left; repeat split; eexists; reflexivity
          | right; repeat split; assumption ].
Qed.

Lemma read_kind_short (k : Kind) (buffer : list Z) (offset : Z) :
  0 <= offset <= len buffer -> offset + width k <= max_int ->
  len buffer < offset + width k ->
  exists msg,
    read_kind k buffer offset =
      Returns (zero_value k, Some (errors_Wrap InsufficientBytes msg), offset).
Proof.
  intros Ho Hmax Hshort.
  assert (R : Read buffer offset (width k) =
              Returns ([], Some InsufficientBytes, offset)).
  { rewrite Read_contract; try assumption.
    - replace (len buffer <? offset + width k) with true
        by (symmetry; apply Z.ltb_lt; lia).
      reflexivity.
    - destruct k; cbn; lia. }
  destruct k; cbn [read_kind kind_type zero_value width] in *;
    cbv [ReadBool ReadByte ReadUnsignedByte ReadShort ReadUnsignedShort ReadInt
         ReadUnsignedInt ReadLong ReadUnsignedLong ReadFloat ReadDouble
         ReadLittleShort ReadLittleUnsignedShort ReadLittleInt
         ReadLittleUnsignedInt ReadLittleLong ReadLittleUnsignedLong
         ReadLittleFloat ReadLittleDouble];
    rewrite R; cbn [bind]; eexists; reflexivity.
Qed.

(** X4.  With fewer than [width] bytes left after an offset inside the
    buffer, every fixed-width reader returns its zero value and an error
    wrapping [InsufficientBytes], and leaves the offset where it was. *)
Theorem fixed_width_short_buffer (k : Kind) (buffer : list Z) (offset : Z) :
  0 <= offset <= len buffer -> offset + width k <= max_int ->
  len buffer < offset + width k ->
  exists msg,
    read_kind k buffer offset =
      Returns (zero_value k, Some (errors_Wrap InsufficientBytes msg), offset).
Proof. exact (read_kind_short k buffer offset). Qed.

Lemma fixed_width_short_buffer_witness :
  exists msg,
    ReadLittleLong [1; 2; 3; 4; 5; 6; 7] 0 =
      Returns (0, Some (errors_Wrap InsufficientBytes msg), 0).
Proof.
  apply (fixed_width_short_buffer KLittleLong [1; 2; 3; 4; 5; 6; 7] 0);
    unfold len, max_int; cbn [List.length Z.of_nat width]; lia.
Defined.

Lemma fixed_width_read_outcomes_witness :
  ReadInt [1; 2] 0 =
    Returns (0, Some (errors_Wrap InsufficientBytes "Error reading bytes for int"), 0)
  /\
  ((0 = zero_value KInt /\ 0 = 0 /\
    exists msg,
      Some (errors_Wrap InsufficientBytes "Error reading bytes for int") =
      Some (errors_Wrap InsufficientBytes msg))
   \/
   (Some (errors_Wrap InsufficientBytes "Error reading bytes for int") = None /\
    0 <= 0 /\ 0 = 0 + width KInt /\ 0 <= len [1; 2])).
Proof.
  assert (H : ReadInt [1; 2] 0 =
              Returns (0, Some (errors_Wrap InsufficientBytes
                                  "Error reading bytes for int"), 0))
    by reflexivity.
  split; [exact H|].
  exact (fixed_width_read_outcomes KInt [1; 2] 0 _ _ _ H).
Defined.

(** Writers append exactly [width] bytes. *)
Lemma byte_slice_list (l : list Z) :
  forallb (fun b => (0 <=? b) && (b <? 256)) l = true -> byte_slice l.
Proof.
  intros Hl. unfold byte_slice. apply Forall_forall. intros b Hin.
  rewrite forallb_forall in Hl. specialize (Hl b Hin).
  apply andb_true_iff in Hl. destruct Hl as [L U].
  apply Z.leb_le in L. apply Z.ltb_lt in U. unfold is_byte. lia.
Qed.

Lemma is_byte_to_byte (x : Z) : is_byte (to_byte x).
Proof. apply wrap_unsigned_range. lia. Qed.

(** X5.  Every fixed-width writer leaves the bytes already in the buffer
    untouched and appends exactly [width] bytes, each in 0..255. *)
Theorem fixed_width_write_appends (k : Kind) (buffer : list Z)
    (v : kind_type k) :
  representable k v ->
  exists enc,
    write_kind k buffer v = buffer ++ enc /\
    len enc = width k /\ byte_slice enc.
Proof.
  intros Hr.
  destruct k; cbn [write_kind kind_type width representable] in *;
    cbv [WriteBool WriteByte WriteUnsignedByte Write WriteShort
         WriteUnsignedShort WriteInt WriteUnsignedInt WriteLong
         WriteUnsignedLong WriteFloat WriteDouble WriteLittleShort
         WriteLittleUnsignedShort WriteLittleInt WriteLittleUnsignedInt
         WriteLittleLong WriteLittleUnsignedLong WriteLittleFloat
         WriteLittleDouble big2 big4 big8 little2 little4 little8];
    try (destruct v);
    (eexists; split; [reflexivity | split; [reflexivity|]]);
    unfold byte_slice;
    repeat (apply Forall_cons; [first [apply is_byte_to_byte | assumption
                                      | unfold is_byte; lia]|]);
    apply Forall_nil.
Qed.

Lemma fixed_width_write_appends_witness :
  exists enc,
    WriteLittleInt [9] (-2) = [9] ++ enc /\ len enc = 4 /\ byte_slice enc.
Proof.
  apply (fixed_width_write_appends KLittleInt [9] (-2)).
  cbv [representable is_int32]. lia.
Defined.

(** ** Decoding arbitrary bytes *)

(** A byte shifted to its place inside a word of [w] bits. *)
Lemma shl_byte (w b k : Z) :
  is_byte b -> 0 <= k -> k + 8 <= w ->
  wrap_unsigned w (Z.shiftl b k) = b * 2 ^ k.
Proof.
  unfold is_byte. intros Hb Hk Hw. unfold wrap_unsigned.
  rewrite Z.shiftl_mul_pow2 by lia. apply Z.mod_small.
  assert (P : 0 < 2 ^ k) by (apply Z.pow_pos_nonneg; lia).
  assert (E : 2 ^ w = 2 ^ (w - k - 8) * (2 ^ 8 * 2 ^ k)).
  { rewrite <- !Z.pow_add_r by lia. f_equal. lia. }
  assert (Q : 0 < 2 ^ (w - k - 8)) by (apply Z.pow_pos_nonneg; lia).
  nia.
Qed.

Ltac join_value :=
  unfold is_byte in *;
  cbv [join_big2 join_big4 join_big8 join_little2 join_little4 join_little8
       index nth shl16 shl32 shl64 to_uint16 to_uint32 to_uint64];
  rewrite ?shl_byte by (unfold is_byte; lia);
  rewrite <- ?Z.shiftl_mul_pow2 by lia;
  repeat match goal with
         | |- context [Z.lor ?a (Z.shiftl ?b ?k)] =>
             rewrite (lor_shiftl_add a b k) by lia
         end;
  rewrite ?Z.shiftl_mul_pow2 by lia;
  lia.

Lemma join_big2_value b0 b1 :
  is_byte b0 -> is_byte b1 -> join_big2 [b0; b1] = b1 + b0 * 2 ^ 8.
Proof. intros. join_value. Qed.

Lemma join_big4_value b0 b1 b2 b3 :
  is_byte b0 -> is_byte b1 -> is_byte b2 -> is_byte b3 ->
  join_big4 [b0; b1; b2; b3] = b3 + b2 * 2 ^ 8 + b1 * 2 ^ 16 + b0 * 2 ^ 24.
Proof. intros. join_value. Qed.

Lemma join_big8_value b0 b1 b2 b3 b4 b5 b6 b7 :
  is_byte b0 -> is_byte b1 -> is_byte b2 -> is_byte b3 ->
  is_byte b4 -> is_byte b5 -> is_byte b6 -> is_byte b7 ->
  join_big8 [b0; b1; b2; b3; b4; b5; b6; b7] =
    b7 + b6 * 2 ^ 8 + b5 * 2 ^ 16 + b4 * 2 ^ 24 + b3 * 2 ^ 32 + b2 * 2 ^ 40
    + b1 * 2 ^ 48 + b0 * 2 ^ 56.
Proof. intros. join_value. Qed.

Lemma join_little2_value b0 b1 :
  is_byte b0 -> is_byte b1 -> join_little2 [b0; b1] = b0 + b1 * 2 ^ 8.
Proof. intros. join_value. Qed.

Lemma join_little4_value b0 b1 b2 b3 :
  is_byte b0 -> is_byte b1 -> is_byte b2 -> is_byte b3 ->
  join_little4 [b0; b1; b2; b3] = b0 + b1 * 2 ^ 8 + b2 * 2 ^ 16 + b3 * 2 ^ 24.
Proof. intros. join_value. Qed.

Lemma join_little8_value b0 b1 b2 b3 b4 b5 b6 b7 :
  is_byte b0 -> is_byte b1 -> is_byte b2 -> is_byte b3 ->
  is_byte b4 -> is_byte b5 -> is_byte b6 -> is_byte b7 ->
  join_little8 [b0; b1; b2; b3; b4; b5; b6; b7] =
    b0 + b1 * 2 ^ 8 + b2 * 2 ^ 16 + b3 * 2 ^ 24 + b4 * 2 ^ 32 + b5 * 2 ^ 40
    + b6 * 2 ^ 48 + b7 * 2 ^ 56.
Proof. intros. join_value. Qed.

Ltac split_value :=
  unfold is_byte in *;
  cbv [big2 big4 big8 little2 little4 little8 to_byte wrap_unsigned];
  rewrite ?Z.shiftr_div_pow2 by lia;
  repeat (f_equal; try (Z.div_mod_to_equations; lia)).

Lemma big2_join b0 b1 :
  is_byte b0 -> is_byte b1 -> big2 (join_big2 [b0; b1]) = [b0; b1].
Proof. intros. rewrite join_big2_value by assumption. split_value. Qed.

Lemma big4_join b0 b1 b2 b3 :
  is_byte b0 -> is_byte b1 -> is_byte b2 -> is_byte b3 ->
  big4 (join_big4 [b0; b1; b2; b3]) = [b0; b1; b2; b3].
Proof. intros. rewrite join_big4_value by assumption. split_value. Qed.

Lemma big8_join b0 b1 b2 b3 b4 b5 b6 b7 :
  is_byte b0 -> is_byte b1 -> is_byte b2 -> is_byte b3 ->
  is_byte b4 -> is_byte b5 -> is_byte b6 -> is_byte b7 ->
  big8 (join_big8 [b0; b1; b2; b3; b4; b5; b6; b7]) =
    [b0; b1; b2; b3; b4; b5; b6; b7].
Proof. intros. rewrite join_big8_value by assumption. split_value. Qed.

Lemma little2_join b0 b1 :
  is_byte b0 -> is_byte b1 -> little2 (join_little2 [b0; b1]) = [b0; b1].
Proof. intros. rewrite join_little2_value by assumption. split_value. Qed.

Lemma little4_join b0 b1 b2 b3 :
  is_byte b0 -> is_byte b1 -> is_byte b2 -> is_byte b3 ->
  little4 (join_little4 [b0; b1; b2; b3]) = [b0; b1; b2; b3].
Proof. intros. rewrite join_little4_value by assumption. split_value. Qed.

Lemma little8_join b0 b1 b2 b3 b4 b5 b6 b7 :
  is_byte b0 -> is_byte b1 -> is_byte b2 -> is_byte b3 ->
  is_byte b4 -> is_byte b5 -> is_byte b6 -> is_byte b7 ->
  little8 (join_little8 [b0; b1; b2; b3; b4; b5; b6; b7]) =
    [b0; b1; b2; b3; b4; b5; b6; b7].
Proof. intros. rewrite join_little8_value by assumption. split_value. Qed.

Lemma wrap_signed_range (w x : Z) :
  0 < w -> - 2 ^ (w - 1) <= wrap_signed w x < 2 ^ (w - 1).
Proof.
  intros Hw. unfold wrap_signed.
  assert (E : 2 ^ w = 2 * 2 ^ (w - 1)).
  { replace w with (Z.succ (w - 1)) at 1 by lia. apply Z.pow_succ_r. lia. }
  assert (P : 0 < 2 ^ (w - 1)) by (apply Z.pow_pos_nonneg; lia).
  pose proof (Z.mod_pos_bound (x + 2 ^ (w - 1)) (2 ^ w) ltac:(lia)). lia.
Qed.

Lemma wrap_unsigned_signed (w x : Z) :
  0 < w -> 0 <= x < 2 ^ w -> wrap_unsigned w (wrap_signed w x) = x.
Proof.
  intros Hw Hx. unfold wrap_signed, wrap_unsigned.
  assert (P : 0 < 2 ^ w) by (apply Z.pow_pos_nonneg; lia).
  pose proof (Z.div_mod (x + 2 ^ (w - 1)) (2 ^ w) ltac:(lia)) as D.
  replace ((x + 2 ^ (w - 1)) mod 2 ^ w - 2 ^ (w - 1))
    with (x + (- ((x + 2 ^ (w - 1)) / 2 ^ w)) * 2 ^ w) by lia.
  rewrite Z.mod_add by lia. apply Z.mod_small. exact Hx.
Qed.

Lemma to_int16_range (x : Z) : is_int16 (to_int16 x).
Proof. apply (wrap_signed_range 16 x). lia. Qed.

Lemma to_int32_range (x : Z) : is_int32 (to_int32 x).
Proof. apply (wrap_signed_range 32 x). lia. Qed.

Lemma to_int64_range (x : Z) : is_int64 (to_int64 x).
Proof. apply (wrap_signed_range 64 x). lia. Qed.

Ltac bytes_of bs Hb Hlen :=
  unfold len in Hlen; cbn [width] in Hlen;
  repeat (destruct bs as [|? bs]; [cbn [List.length] in Hlen; lia|]);
  destruct bs; [|cbn [List.length] in Hlen; lia];
  repeat match goal with
         | H : byte_slice (_ :: _) |- _ => inversion H; subst; clear H
         | H : Forall is_byte (_ :: _) |- _ => inversion H; subst; clear H
         end.

Ltac joined_range :=
  first [rewrite join_big2_value by assumption
        | rewrite join_big4_value by assumption
        | rewrite join_big8_value by assumption
        | rewrite join_little2_value by assumption
        | rewrite join_little4_value by assumption
        | rewrite join_little8_value by assumption];
  unfold is_byte, is_uint16, is_uint32, is_uint64 in *; lia.

(** X6.  For every fixed-width kind but bool, any [width] bytes decode
    without error to a value of the kind's Go type, and writing that value
    gives the same bytes back: the encodings are one-to-one. *)
Theorem fixed_width_decode_encode (k : Kind) (buffer bs : list Z) :
  k <> KBool -> byte_slice bs -> len bs = width k ->
  valid_slice (buffer ++ bs) ->
  exists v,
    read_kind k (buffer ++ bs) (len buffer) =
      Returns (v, None, len buffer + width k) /\
    representable k v /\
    write_kind k buffer v = buffer ++ bs.
Proof.
  intros Hk Hb Hlen Hv.
  destruct k; try congruence; clear Hk; bytes_of bs Hb Hlen;
    cbn [read_kind write_kind representable kind_type width];
    cbv [ReadByte ReadUnsignedByte ReadShort ReadUnsignedShort ReadInt
         ReadUnsignedInt ReadLong ReadUnsignedLong ReadFloat ReadDouble
         ReadLittleShort ReadLittleUnsignedShort ReadLittleInt
         ReadLittleUnsignedInt ReadLittleLong ReadLittleUnsignedLong
         ReadLittleFloat ReadLittleDouble
         WriteByte WriteUnsignedByte Write WriteShort
         WriteUnsignedShort WriteInt WriteUnsignedInt WriteLong
         WriteUnsignedLong WriteFloat WriteDouble WriteLittleShort
         WriteLittleUnsignedShort WriteLittleInt WriteLittleUnsignedInt
         WriteLittleLong WriteLittleUnsignedLong WriteLittleFloat
         WriteLittleDouble];
    read_back; (eexists; split; [reflexivity|]).
  - (* byte *) split; [assumption | reflexivity].
  - split; [assumption|]. unfold index. cbn [nth].
    rewrite to_byte_small by assumption. reflexivity.
  - split; [apply to_int16_range|]. unfold to_int16, to_uint16.
    rewrite wrap_unsigned_signed by (try lia; joined_range).
    rewrite big2_join by assumption. reflexivity.
  - split; [joined_range|]. rewrite big2_join by assumption. reflexivity.
  - split; [apply to_int32_range|]. unfold to_int32, to_uint32.
    rewrite wrap_unsigned_signed by (try lia; joined_range).
    rewrite big4_join by assumption. reflexivity.
  - split; [joined_range|]. rewrite big4_join by assumption. reflexivity.
  - split; [apply to_int64_range|]. unfold to_int64, to_uint64.
    rewrite wrap_unsigned_signed by (try lia; joined_range).
    rewrite big8_join by assumption. reflexivity.
  - split; [joined_range|]. rewrite big8_join by assumption. reflexivity.
  - cbn [Float32bits]. split; [joined_range|].
    rewrite big4_join by assumption. reflexivity.
  - cbn [Float64bits]. split; [joined_range|].
    rewrite big8_join by assumption. reflexivity.
  - split; [apply to_int16_range|]. unfold to_int16, to_uint16.
    rewrite wrap_unsigned_signed by (try lia; joined_range).
    rewrite little2_join by assumption. reflexivity.
  - split; [joined_range|]. rewrite little2_join by assumption. reflexivity.
  - split; [apply to_int32_range|]. unfold to_int32, to_uint32.
    rewrite wrap_unsigned_signed by (try lia; joined_range).
    rewrite little4_join by assumption. reflexivity.
  - split; [joined_range|]. rewrite little4_join by assumption. reflexivity.
  - split; [apply to_int64_range|]. unfold to_int64, to_uint64.
    rewrite wrap_unsigned_signed by (try lia; joined_range).
    rewrite little8_join by assumption. reflexivity.
  - split; [joined_range|]. rewrite little8_join by assumption. reflexivity.
  - cbn [Float32bits]. split; [joined_range|].
    rewrite little4_join by assumption. reflexivity.
  - cbn [Float64bits]. split; [joined_range|].
    rewrite little8_join by assumption. reflexivity.
Qed.

(** ** How many bytes a varint takes *)

Lemma pow_7_mono (k : Z) : 1 <= k -> 2 ^ 7 <= 2 ^ (7 * k).
Proof. intros Hk. apply Z.pow_le_mono_r; lia. Qed.

Lemma WriteUnsignedVarInt_loop_size (n : nat) :
  forall (X : list Z) (v : Z),
    0 <= v < 2 ^ (7 * Z.of_nat (S n)) -> v < 2 ^ 32 ->
    exists enc,
      WriteUnsignedVarInt_loop (S n) X v = Returns (X ++ enc) /\
      byte_slice enc /\
      forall k, 1 <= k -> (len enc <= k <-> v < 2 ^ (7 * k)).
Proof.
  induction n as [|n IH]; intros X v Hv H32;
    rewrite WriteUnsignedVarInt_loop_step; unfold to_uint32.
  - rewrite low_seven_bits by (cbn in Hv; lia). cbn [Z.eqb negb].
    exists [to_byte v]. split; [reflexivity|].
    split; [repeat constructor; apply is_byte_to_byte|].
    intros k Hk. pose proof (pow_7_mono k Hk). unfold len. cbn in *. lia.
  - destruct (Z.eqb_spec (Z.land v (wrap_unsigned 32 (-128))) 0) as [E | E];
      cbn [negb].
    + apply high_bits_zero_small in E; [|lia|lia].
      exists [to_byte v]. split; [reflexivity|].
      split; [repeat constructor; apply is_byte_to_byte|].
      intros k Hk. pose proof (pow_7_mono k Hk). unfold len. cbn in *. lia.
    + assert (Hbig : 2 ^ 7 <= v).
      { destruct (Z.lt_ge_cases v (2 ^ 7)) as [Hlt | Hge]; [|exact Hge].
        exfalso. apply E. apply low_seven_bits; lia. }
      pose proof (shiftr_7_bound v (S n) Hv) as Hv'.
      assert (H32' : Z.shiftr v 7 < 2 ^ 32).
      { rewrite Z.shiftr_div_pow2 by lia.
        apply Z.div_lt_upper_bound; lia. }
      destruct (IH (Write X (to_byte (Z.lor (Z.land v 0x7F) 0x80)))
                  (Z.shiftr v 7) Hv' H32') as (enc & Eenc & Benc & Senc).
      exists (to_byte (Z.lor (Z.land v 0x7F) 0x80) :: enc).
      rewrite Eenc. unfold Write. rewrite <- app_assoc.
      split; [reflexivity|].
      split; [constructor; [apply is_byte_to_byte | exact Benc]|].
      intros k Hk.
      assert (L1 : 1 <= len enc).
      { destruct (Z.lt_ge_cases (len enc) 1) as [Hlt | Hge]; [|exact Hge].
        exfalso. pose proof (len_nonneg enc).
        assert (Hz : len enc <= 1) by lia.
        apply (Senc 1 ltac:(lia)) in Hz.
        assert (len enc = 0) by lia.
        destruct enc; [|unfold len in *; cbn in *; lia].
        rewrite app_nil_r in Eenc.
        destruct (WriteUnsignedVarInt_loop_appends n
                    (Write X (to_byte (Z.lor (Z.land v 0x7F) 0x80)))
                    (Z.shiftr v 7) Hv') as (enc' & E' & L').
        rewrite Eenc in E'. inversion E' as [E''].
        rewrite <- app_nil_r in E'' at 1. apply app_inv_head in E''.
        subst enc'. unfold len in L'. cbn in L'. lia. }
      replace (len (to_byte (Z.lor (Z.land v 0x7F) 0x80) :: enc))
        with (1 + len enc) by (unfold len; cbn [List.length]; lia).
      destruct (Z.eq_dec k 1) as [-> | Hk1].
      * change (2 ^ (7 * 1)) with (2 ^ 7). lia.
      * specialize (Senc (k - 1) ltac:(lia)).
        rewrite Z.shiftr_div_pow2 in Senc by lia.
        replace (7 * k) with (7 + 7 * (k - 1)) by lia.
        rewrite Z.pow_add_r by lia.
        assert (P : 0 < 2 ^ (7 * (k - 1))) by (apply Z.pow_pos_nonneg; lia).
        pose proof (Z.div_mod v (2 ^ 7) ltac:(lia)) as D.
        pose proof (Z.mod_pos_bound v (2 ^ 7) ltac:(lia)) as B.
        split; intros H.
        -- assert (Hq : v / 2 ^ 7 < 2 ^ (7 * (k - 1))) by (apply Senc; lia).
           nia.
        -- assert (Hq : v / 2 ^ 7 < 2 ^ (7 * (k - 1))).
           { apply Z.div_lt_upper_bound; lia. }
           apply Senc in Hq. lia.
Qed.

Lemma WriteUnsignedVarLong_loop_size (n : nat) :
  forall (X : list Z) (v : Z),
    0 <= v < 2 ^ (7 * Z.of_nat (S n)) -> v < 2 ^ 64 ->
    exists enc,
      WriteUnsignedVarLong_loop (S n) X v = Returns (X ++ enc) /\
      byte_slice enc /\
      forall k, 1 <= k -> (len enc <= k <-> v < 2 ^ (7 * k)).
Proof.
  induction n as [|n IH]; intros X v Hv H64;
    rewrite WriteUnsignedVarLong_loop_step; unfold to_uint64.
  - rewrite low_seven_bits by (cbn in Hv; lia). cbn [Z.eqb negb].
    exists [to_byte v]. split; [reflexivity|].
    split; [repeat constructor; apply is_byte_to_byte|].
    intros k Hk. pose proof (pow_7_mono k Hk). unfold len. cbn in *. lia.
  - destruct (Z.eqb_spec (Z.land v (wrap_unsigned 64 (-128))) 0) as [E | E];
      cbn [negb].
    + apply high_bits_zero_small in E; [|lia|lia].
      exists [to_byte v]. split; [reflexivity|].
      split; [repeat constructor; apply is_byte_to_byte|].
      intros k Hk. pose proof (pow_7_mono k Hk). unfold len. cbn in *. lia.
    + assert (Hbig : 2 ^ 7 <= v).
      { destruct (Z.lt_ge_cases v (2 ^ 7)) as [Hlt | Hge]; [|exact Hge].
        exfalso. apply E. apply low_seven_bits; lia. }
      pose proof (shiftr_7_bound v (S n) Hv) as Hv'.
      assert (H64' : Z.shiftr v 7 < 2 ^ 64).
      { rewrite Z.shiftr_div_pow2 by lia.
        apply Z.div_lt_upper_bound; lia. }
      destruct (IH (Write X (to_byte (Z.lor (Z.land v 0x7F) 0x80)))
                  (Z.shiftr v 7) Hv' H64') as (enc & Eenc & Benc & Senc).
      exists (to_byte (Z.lor (Z.land v 0x7F) 0x80) :: enc).
      rewrite Eenc. unfold Write. rewrite <- app_assoc.
      split; [reflexivity|].
      split; [constructor; [apply is_byte_to_byte | exact Benc]|].
      intros k Hk.
      assert (L1 : 1 <= len enc).
      { destruct (Z.lt_ge_cases (len enc) 1) as [Hlt | Hge]; [|exact Hge].
        exfalso. pose proof (len_nonneg enc).
        assert (Hz : len enc <= 1) by lia.
        apply (Senc 1 ltac:(lia)) in Hz.
        assert (len enc = 0) by lia.
        destruct enc; [|unfold len in *; cbn in *; lia].
        rewrite app_nil_r in Eenc.
        destruct (WriteUnsignedVarLong_loop_appends n
                    (Write X (to_byte (Z.lor (Z.land v 0x7F) 0x80)))
                    (Z.shiftr v 7) Hv') as (enc' & E' & L').
        rewrite Eenc in E'. inversion E' as [E''].
        rewrite <- app_nil_r in E'' at 1. apply app_inv_head in E''.
        subst enc'. unfold len in L'. cbn in L'. lia. }
      replace (len (to_byte (Z.lor (Z.land v 0x7F) 0x80) :: enc))
        with (1 + len enc) by (unfold len; cbn [List.length]; lia).
      destruct (Z.eq_dec k 1) as [-> | Hk1].
      * change (2 ^ (7 * 1)) with (2 ^ 7). lia.
      * specialize (Senc (k - 1) ltac:(lia)).
        rewrite Z.shiftr_div_pow2 in Senc by lia.
        replace (7 * k) with (7 + 7 * (k - 1)) by lia.
        rewrite Z.pow_add_r by lia.
        assert (P : 0 < 2 ^ (7 * (k - 1))) by (apply Z.pow_pos_nonneg; lia).
        pose proof (Z.div_mod v (2 ^ 7) ltac:(lia)) as D.
        pose proof (Z.mod_pos_bound v (2 ^ 7) ltac:(lia)) as B.
        split; intros H.
        -- assert (Hq : v / 2 ^ 7 < 2 ^ (7 * (k - 1))) by (apply Senc; lia).
           nia.
        -- assert (Hq : v / 2 ^ 7 < 2 ^ (7 * (k - 1))).
           { apply Z.div_lt_upper_bound; lia. }
           apply Senc in Hq. lia.
Qed.

(** X10.  The encoding of an unsigned varint takes at most [k] bytes
    exactly when the value is below [2^(7k)], for both widths, and consists
    of bytes. *)
Theorem unsigned_varint_size :
  (forall buffer v,
      is_uint32 v ->
      exists enc,
        WriteUnsignedVarInt buffer v = Returns (buffer ++ enc) /\
        byte_slice enc /\
        forall k, 1 <= k -> (len enc <= k <-> v < 2 ^ (7 * k))) /\
  (forall buffer v,
      is_uint64 v ->
      exists enc,
        WriteUnsignedVarLong buffer v = Returns (buffer ++ enc) /\
        byte_slice enc /\
        forall k, 1 <= k -> (len enc <= k <-> v < 2 ^ (7 * k))).
Proof.
  split; intros buffer v Hv.
  - unfold is_uint32 in Hv. apply (WriteUnsignedVarInt_loop_size 4); [|lia].
    change (2 ^ (7 * Z.of_nat 5)) with (2 ^ 35). lia.
  - unfold is_uint64 in Hv. apply (WriteUnsignedVarLong_loop_size 9); [|lia].
    change (2 ^ (7 * Z.of_nat 10)) with (2 ^ 70). lia.
Qed.

Lemma unsigned_varint_size_witness :
  is_uint32 16384 /\
  exists enc,
    WriteUnsignedVarInt [] 16384 = Returns ([] ++ enc) /\ byte_slice enc /\
    forall k, 1 <= k -> (len enc <= k <-> 16384 < 2 ^ (7 * k)).
Proof.
  assert (H : is_uint32 16384) by (unfold is_uint32; lia).
  split; [exact H|]. exact (proj1 unsigned_varint_size [] 16384 H).
Defined.

(** ** Input that ends inside a varint *)

Lemma ReadUnsignedVarInt_loop_truncated (buffer : list Z) :
  len buffer < max_int -> byte_slice buffer ->
  forall fuel offset result j,
    0 <= offset <= len buffer -> 0 <= j -> j + (len buffer - offset) <= 5 ->
    len buffer - offset < Z.of_nat fuel ->
    (forall i, offset <= i < len buffer ->
               continues (nth (Z.to_nat i) buffer 0) = true) ->
    ReadUnsignedVarInt_loop fuel buffer offset result j =
      Returns (0, Some (errors_Wrap InsufficientBytes
                          "Couldn't get next byte of unsigned varint"),
               len buffer).
Proof.
  intros Hv Hb. induction fuel as [|fuel IH];
    intros offset result j Ho Hj Hn Hf Hc; [lia|].
  cbn [ReadUnsignedVarInt_loop].
  destruct (Z.eq_dec offset (len buffer)) as [-> | Hne].
  - rewrite Read_contract by lia.
    replace (len buffer <? len buffer + 1) with true
      by (symmetry; apply Z.ltb_lt; lia).
    reflexivity.
  - rewrite Read_one by (unfold valid_slice; lia). cbn [bind]. unfold index. cbn [nth].
    pose proof (byte_slice_nth buffer (Z.to_nat offset) Hb) as Hx.
    unfold is_byte in Hx.
    replace (nth (Z.to_nat offset) buffer 0 <? 0) with false
      by (symmetry; apply Z.ltb_ge; lia).
    unfold to_uint32. rewrite (wrap_unsigned_small 32 (j + 1)) by lia.
    destruct (Z.gtb_spec (j + 1) 5) as [G | G]; [lia|].
    pose proof (Hc offset ltac:(lia)) as C. unfold continues in C. rewrite C.
    apply IH; try lia. intros i Hi. apply Hc. lia.
Qed.

(** X11.  When the buffer ends inside a varint (every byte from the offset
    to the end carries the continuation bit, at most five of them),
    [ReadUnsignedVarInt] fails with a wrapped [InsufficientBytes] and leaves
    the offset at the end of the buffer, not where it started. *)
Theorem unsigned_varint_truncated (buffer : list Z) (offset : Z) :
  len buffer < max_int -> byte_slice buffer ->
  0 <= offset <= len buffer -> len buffer - offset <= 5 ->
  (forall i, offset <= i < len buffer ->
             continues (nth (Z.to_nat i) buffer 0) = true) ->
  ReadUnsignedVarInt buffer offset =
    Returns (0, Some (errors_Wrap InsufficientBytes
                        "Couldn't get next byte of unsigned varint"),
             len buffer).
Proof.
  intros Hv Hb Ho Hn Hc. unfold ReadUnsignedVarInt.
  apply ReadUnsignedVarInt_loop_truncated; auto;
    try (change (Z.of_nat 6) with 6); lia.
Qed.

Lemma unsigned_varint_truncated_witness :
  ReadUnsignedVarInt [7; 0x80; 0xFF] 1 =
    Returns (0, Some (errors_Wrap InsufficientBytes
                        "Couldn't get next byte of unsigned varint"),
             len [7; 0x80; 0xFF]).
Proof.
  apply (unsigned_varint_truncated [7; 0x80; 0xFF] 1).
  - unfold len, max_int. cbn [List.length Z.of_nat]. lia.
  - apply byte_slice_list. reflexivity.
  - unfold len. cbn [List.length Z.of_nat]. lia.
  - unfold len. cbn [List.length Z.of_nat]. lia.
  - unfold len. cbn [List.length Z.of_nat]. intros i Hi.
    assert (C : i = 1 \/ i = 2) by lia. destruct C as [-> | ->]; reflexivity.
Defined.

(** ** Strings that do not fit *)

(** X13.  [ReadString] fails in two ways.  If the length prefix announces
    more bytes than remain, the error wraps [InsufficientBytes] and the
    offset stays just past the prefix.  If the buffer ends inside the
    prefix, the error wraps the varint reader's error and the offset is at
    the end of the buffer. *)
Theorem string_read_failures :
  (forall buffer l rest,
      is_uint32 l -> len rest < l ->
      exists enc,
        WriteUnsignedVarInt buffer l = Returns (buffer ++ enc) /\
        (valid_slice (buffer ++ enc ++ rest) ->
         len buffer + len enc + l <= max_int ->
         ReadString (buffer ++ enc ++ rest) (len buffer) =
           Returns ([], Some (errors_Wrap InsufficientBytes
                                "Error reading the bytes of the string"),
                    len buffer + len enc))) /\
  (forall buffer offset,
      len buffer < max_int -> byte_slice buffer ->
      0 <= offset <= len buffer -> len buffer - offset <= 5 ->
      (forall i, offset <= i < len buffer ->
                 continues (nth (Z.to_nat i) buffer 0) = true) ->
      ReadString buffer offset =
        Returns ([], Some (errors_Wrap
                             (errors_Wrap InsufficientBytes
                                "Couldn't get next byte of unsigned varint")
                             "Error reading length of string"),
                 len buffer)).
Proof.
  split.
  - intros buffer l rest Hl Hshort.
    destruct (ReadUnsignedVarInt_written buffer l Hl) as (enc & E & L & R).
    exists enc. split; [exact E|]. intros HB Hmax.
    unfold ReadString. rewrite (R rest HB). cbn [bind].
    pose proof (len_nonneg buffer). pose proof (len_nonneg rest).
    unfold is_uint32 in Hl.
    rewrite to_int_small by (unfold is_int, min_int, max_int; lia).
    rewrite Read_contract by (rewrite ?len_app; lia).
    replace (len (buffer ++ enc ++ rest) <? len buffer + len enc + l) with true
      by (symmetry; apply Z.ltb_lt; rewrite !len_app; lia).
    reflexivity.
  - intros buffer offset Hmax Hb Ho Hn Hc. unfold ReadString, ReadUnsignedVarInt.
    rewrite (ReadUnsignedVarInt_loop_truncated buffer Hmax Hb 6 offset 0 0);
      auto; try (change (Z.of_nat 6) with 6); lia.
Qed.

Lemma string_read_failures_witness :
  (exists enc,
      WriteUnsignedVarInt [] 4 = Returns ([] ++ enc) /\
      (valid_slice ([] ++ enc ++ [104; 105]) ->
       len (@nil Z) + len enc + 4 <= max_int ->
       ReadString ([] ++ enc ++ [104; 105]) (len (@nil Z)) =
         Returns ([], Some (errors_Wrap InsufficientBytes
                              "Error reading the bytes of the string"),
                  len (@nil Z) + len enc))) /\
  ReadString [0x85] 0 =
    Returns ([], Some (errors_Wrap
                         (errors_Wrap InsufficientBytes
                            "Couldn't get next byte of unsigned varint")
                         "Error reading length of string"),
             len [0x85]).
Proof.
  destruct string_read_failures as [A B]. split.
  - apply (A [] 4 [104; 105]).
    + unfold is_uint32. lia.
    + unfold len. cbn [List.length Z.of_nat]. lia.
  - apply (B [0x85] 0).
    + unfold len, max_int. cbn [List.length Z.of_nat]. lia.
    + apply byte_slice_list. reflexivity.
    + unfold len. cbn [List.length Z.of_nat]. lia.
    + unfold len. cbn [List.length Z.of_nat]. lia.
    + unfold len. cbn [List.length Z.of_nat]. intros i Hi.
      assert (i = 0) as -> by lia. reflexivity.
Defined.

(** ** Triads below 2^20 *)

Lemma ReadBigTriad_WriteBigTriad (buffer : list Z) (v : Z) :
  valid_slice (WriteBigTriad buffer v) ->
  ReadBigTriad (WriteBigTriad buffer v) (len buffer) =
    Returns (v mod 2 ^ 20, None, len buffer + 3).
Proof.
  rewrite WriteBigTriad_bytes. intros Hv.
  rewrite ReadBigTriad_bytes by (auto using byte_of_mod).
  f_equal. f_equal. f_equal.
  change (2 ^ 8) with 256. change (2 ^ 16) with 65536.
  change (2 ^ 4) with 16. change (2 ^ 20) with 1048576.
  Z.div_mod_to_equations. lia.
Qed.

(** X14.  Reading back a big-endian triad gives the value modulo 2^20;
    both triad codecs round-trip every value below 2^20. *)
Theorem triad_round_trip :
  (forall buffer v,
      valid_slice (WriteBigTriad buffer v) ->
      ReadBigTriad (WriteBigTriad buffer v) (len buffer) =
        Returns (v mod 2 ^ 20, None, len buffer + 3)) /\
  (forall buffer v,
      0 <= v < 2 ^ 20 ->
      valid_slice (WriteBigTriad buffer v) ->
      valid_slice (WriteLittleTriad buffer v) ->
      ReadBigTriad (WriteBigTriad buffer v) (len buffer) =
        Returns (v, None, len buffer + 3) /\
      ReadLittleTriad (WriteLittleTriad buffer v) (len buffer) =
        Returns (v, None, len buffer + 3)).
Proof.
  split; [exact ReadBigTriad_WriteBigTriad|].
  intros buffer v Hv HB HL.
  rewrite ReadBigTriad_WriteBigTriad, ReadLittleTriad_WriteLittleTriad
    by assumption.
  rewrite Z.mod_small by exact Hv. split; reflexivity.
Qed.

Lemma triad_round_trip_witness :
  (valid_slice (WriteBigTriad [1] 0xABCDE) /\
   ReadBigTriad (WriteBigTriad [1] 0xABCDE) (len [1]) =
     Returns (0xABCDE, None, len [1] + 3)) /\
  ReadBigTriad (WriteBigTriad [] 0xFFFFFF) (len (@nil Z)) =
    Returns (0xFFFFFF mod 2 ^ 20, None, len (@nil Z) + 3).
Proof.
  assert (V : forall l : list Z, (List.length l <= 16)%nat -> valid_slice l).
  { intros l Hl. unfold valid_slice, len, max_int. lia. }
  destruct triad_round_trip as [A B].
  split; [split|].
  - apply V. cbn. lia.
  - apply (B [1] 0xABCDE); [lia | apply V; cbn; lia | apply V; cbn; lia].
  - apply (A [] 0xFFFFFF). apply V. cbn. lia.
Defined.

(** ** Streams: putters and getters of the fixed-width kinds *)

Lemma put_kind_put_with (k : Kind) : put_kind k = put_with (write_kind k).
Proof. destruct k; reflexivity. Qed.

Lemma get_kind_get_with (k : Kind) : get_kind k = get_with (read_kind k).
Proof. destruct k; reflexivity. Qed.

Lemma read_kind_write_kind (k : Kind) (buffer : list Z) (v : kind_type k) :
  representable k v ->
  valid_slice (write_kind k buffer v) ->
  read_kind k (write_kind k buffer v) (len buffer) =
    Returns (v, None, len buffer + width k).
Proof.
  destruct k; cbn [representable write_kind read_kind width kind_type] in *;
    intros Hr Hv;
    cbv [WriteBool WriteByte WriteUnsignedByte Write WriteShort
         WriteUnsignedShort WriteInt WriteUnsignedInt WriteLong
         WriteUnsignedLong WriteFloat WriteDouble WriteLittleShort
         WriteLittleUnsignedShort WriteLittleInt WriteLittleUnsignedInt
         WriteLittleLong WriteLittleUnsignedLong WriteLittleFloat
         WriteLittleDouble
         ReadBool ReadByte ReadUnsignedByte ReadShort ReadUnsignedShort ReadInt
         ReadUnsignedInt ReadLong ReadUnsignedLong ReadFloat ReadDouble
         ReadLittleShort ReadLittleUnsignedShort ReadLittleInt
         ReadLittleUnsignedInt ReadLittleLong ReadLittleUnsignedLong
         ReadLittleFloat ReadLittleDouble] in *;
    rewrite ?to_byte_small in * by exact Hr;
    try (destruct v); read_back;
    rewrite ?join_big2_big2, ?join_big4_big4, ?join_big8_big8,
      ?join_little2_little2, ?join_little4_little4, ?join_little8_little8
      by (first [assumption | apply to_uint16_range | apply to_uint32_range
                | apply to_uint64_range]);
    rewrite ?to_int16_to_uint16, ?to_int32_to_uint32, ?to_int64_to_uint64
      by assumption;
    reflexivity.
Qed.

Lemma write_kind_appends (k : Kind) (buffer : list Z) (v : kind_type k) :
  exists enc, write_kind k buffer v = buffer ++ enc /\ len enc = width k.
Proof.
  destruct k; cbn [write_kind kind_type width] in *;
    cbv [WriteBool WriteByte WriteUnsignedByte Write WriteShort
         WriteUnsignedShort WriteInt WriteUnsignedInt WriteLong
         WriteUnsignedLong WriteFloat WriteDouble WriteLittleShort
         WriteLittleUnsignedShort WriteLittleInt WriteLittleUnsignedInt
         WriteLittleLong WriteLittleUnsignedLong WriteLittleFloat
         WriteLittleDouble big2 big4 big8 little2 little4 little8];
    try (destruct v as [|]);
    eexists; split; reflexivity.
Qed.

(** X15.  On a stream whose offset is at the end of its buffer, a fixed-width
    putter followed by the getter of the same kind returns the value put;
    the offset ends at the new end of the buffer, which grew by the width,
    and the fault is as it was. *)
Theorem stream_put_get_round_trip (k : Kind) (stream : Stream)
    (v : kind_type k) :
  representable k v ->
  valid_slice (write_kind k (Buffer stream) v) ->
  Offset stream = len (Buffer stream) ->
  exists s1 s2,
    put_kind k stream v = Returns (tt, s1) /\
    get_kind k s1 = Returns (v, s2) /\
    Offset s1 = Offset stream /\ err s1 = err stream /\
    Buffer s2 = Buffer s1 /\ err s2 = err stream /\
    Offset s2 = len (Buffer s2) /\
    len (Buffer s2) = len (Buffer stream) + width k.
Proof.
  intros Hr Hv Ho.
  rewrite put_kind_put_with, get_kind_get_with.
  destruct stream as [offset buffer e]. cbn [Offset Buffer] in *. subst offset.
  rewrite put_with_appends.
  eexists. eexists. split; [reflexivity|].
  unfold get_with. cbn [Offset Buffer err].
  rewrite read_kind_write_kind by assumption. cbn [bind].
  split; [reflexivity|]. unfold with_Offset. cbn [Offset Buffer err].
  repeat split.
  - destruct (write_kind_appends k buffer v) as (enc & E & L).
    rewrite E, len_app. lia.
  - destruct (write_kind_appends k buffer v) as (enc & E & L).
    rewrite E, len_app. lia.
Qed.

Lemma stream_put_get_round_trip_witness :
  let stream := mk_Stream 2 [1; 2] None in
  representable KLittleShort (-2) /\
  exists s1 s2,
    PutLittleShort stream (-2) = Returns (tt, s1) /\
    GetLittleShort s1 = Returns (-2, s2) /\
    Offset s1 = Offset stream /\ err s1 = err stream /\
    Buffer s2 = Buffer s1 /\ err s2 = err stream /\
    Offset s2 = len (Buffer s2) /\
    len (Buffer s2) = len (Buffer stream) + width KLittleShort.
Proof.
  cbv zeta.
  assert (R : representable KLittleShort (-2))
    by (cbv [representable is_int16]; lia).
  split; [exact R|].
  apply (stream_put_get_round_trip KLittleShort (mk_Stream 2 [1; 2] None) (-2) R).
  - unfold valid_slice, len, max_int. cbn. lia.
  - reflexivity.
Defined.

(** X16.  When fewer than [width] bytes remain, a fixed-width getter on a
    stream whose [err] pointer is set returns the zero value, leaves buffer
    and offset alone, and records the wrapped [InsufficientBytes] with the
    current offset, keeping the buffer recorded at construction; on a
    stream with a nil pointer it panics in [SetError]. *)
Theorem stream_getter_failure (k : Kind) (stream : Stream) :
  0 <= Offset stream <= len (Buffer stream) ->
  Offset stream + width k <= max_int ->
  len (Buffer stream) < Offset stream + width k ->
  (forall se,
      err stream = Some se ->
      exists msg,
        get_kind k stream =
          Returns (zero_value k,
                   mk_Stream (Offset stream) (Buffer stream)
                     (Some (mk_streamErr
                              (Some (errors_Wrap InsufficientBytes msg))
                              (Offset stream) (se_buf se))))) /\
  (err stream = None -> get_kind k stream = Panics).
Proof.
  intros Ho Hmax Hshort.
  destruct (read_kind_short k (Buffer stream) (Offset stream) Ho Hmax Hshort)
    as (msg & R).
  rewrite get_kind_get_with. unfold get_with. rewrite R. cbn [bind].
  unfold SetError, with_Offset. cbn [err Offset Buffer].
  split.
  - intros se E. rewrite E. cbn [bind]. exists msg. reflexivity.
  - intros E. rewrite E. reflexivity.
Qed.

Lemma stream_getter_failure_witness :
  (exists msg,
      GetInt (NewGetStream [1; 2] 1) =
        Returns (0, mk_Stream 1 [1; 2]
                      (Some (mk_streamErr
                               (Some (errors_Wrap InsufficientBytes msg))
                               1 (Some [1; 2]))))) /\
  GetInt (mk_Stream 1 [1; 2] None) = Panics.
Proof.
  split.
  - refine (proj1 (stream_getter_failure KInt (NewGetStream [1; 2] 1) _ _ _)
              _ eq_refl);
      unfold len, max_int; cbn; lia.
  - refine (proj2 (stream_getter_failure KInt (mk_Stream 1 [1; 2] None) _ _ _)
              eq_refl);
      unfold len, max_int; cbn; lia.
Defined.

(** X17.  On a stream standing on its last byte [Feof] already answers
    true, although [GetByte] still returns that byte; it answers true
    again after the read. *)
Theorem Feof_before_last_byte (stream : Stream) :
  valid_slice (Buffer stream) -> 1 <= len (Buffer stream) ->
  Offset stream = len (Buffer stream) - 1 ->
  fst (Feof stream) = true /\
  GetByte stream =
    Returns (nth (Z.to_nat (Offset stream)) (Buffer stream) 0,
             with_Offset stream (len (Buffer stream))) /\
  fst (Feof (with_Offset stream (len (Buffer stream)))) = true.
Proof.
  intros Hv Hl Ho. unfold valid_slice, max_int in Hv.
  unfold Feof, GetByte, get_with, ReadByte. cbn [fst Offset Buffer with_Offset].
  rewrite to_int_small by (unfold is_int, min_int, max_int; lia).
  rewrite Read_one by (unfold valid_slice, max_int; lia).
  cbn [bind]. unfold index. cbn [nth]. rewrite Ho.
  replace (len (Buffer stream) - 1 + 1) with (len (Buffer stream)) by lia.
  repeat split; apply Z.geb_le; lia.
Qed.

Lemma Feof_before_last_byte_witness :
  fst (Feof (NewGetStream [5; 6; 7] 2)) = true /\
  GetByte (NewGetStream [5; 6; 7] 2) =
    Returns (nth (Z.to_nat 2) [5; 6; 7] 0,
             with_Offset (NewGetStream [5; 6; 7] 2) (len [5; 6; 7])) /\
  fst (Feof (with_Offset (NewGetStream [5; 6; 7] 2) (len [5; 6; 7]))) = true.
Proof.
  apply (Feof_before_last_byte (NewGetStream [5; 6; 7] 2));
    unfold valid_slice, len, max_int; cbn; lia.
Defined.

Lemma unsigned_varint_round_trip_witness :
  is_uint32 300 /\
  exists enc,
    WriteUnsignedVarInt [9] 300 = Returns ([9] ++ enc) /\
    1 <= len enc <= 5 /\
    forall post,
      valid_slice ([9] ++ enc ++ post) ->
      ReadUnsignedVarInt ([9] ++ enc ++ post) (len [9]) =
        Returns (300, None, len [9] + len enc).
Proof.
  assert (H : is_uint32 300) by (unfold is_uint32; lia).
  split; [exact H|]. exact (unsigned_varint_round_trip [9] 300 H).
Defined.

Lemma unsigned_varlong_round_trip_witness :
  is_uint64 (2 ^ 64 - 1) /\
  exists enc,
    WriteUnsignedVarLong [] (2 ^ 64 - 1) = Returns ([] ++ enc) /\
    1 <= len enc <= 10 /\
    forall post,
      valid_slice ([] ++ enc ++ post) ->
      ReadUnsignedVarLong ([] ++ enc ++ post) (len (@nil Z)) =
        Returns (2 ^ 64 - 1, None, len (@nil Z) + len enc).
Proof.
  assert (H : is_uint64 (2 ^ 64 - 1)) by (unfold is_uint64; lia).
  split; [exact H|]. exact (unsigned_varlong_round_trip [] (2 ^ 64 - 1) H).
Defined.

Lemma signed_varint_round_trip_witness :
  (is_int32 (- 2 ^ 31) /\
   exists enc,
     WriteVarInt [] (- 2 ^ 31) = Returns ([] ++ enc) /\
     1 <= len enc <= 5 /\
     forall post,
       valid_slice ([] ++ enc ++ post) ->
       ReadVarInt ([] ++ enc ++ post) (len (@nil Z)) =
         Returns (- 2 ^ 31, None, len (@nil Z) + len enc)) /\
  (is_int64 (-1) /\
   exists enc,
     WriteVarLong [] (-1) = Returns ([] ++ enc) /\
     1 <= len enc <= 10 /\
     forall post,
       valid_slice ([] ++ enc ++ post) ->
       ReadVarLong ([] ++ enc ++ post) (len (@nil Z)) =
         Returns (-1, None, len (@nil Z) + len enc)).
Proof.
  assert (H32 : is_int32 (- 2 ^ 31)) by (unfold is_int32; lia).
  assert (H64 : is_int64 (-1)) by (unfold is_int64; lia).
  destruct signed_varint_round_trip as [A B].
  split; (split; [assumption|]).
  - exact (A [] (- 2 ^ 31) H32).
  - exact (B [] (-1) H64).
Defined.

Lemma string_round_trip_witness :
  len [104; 101; 108; 108; 111] < 2 ^ 32 /\
  exists enc,
    WriteString [] [104; 101; 108; 108; 111] =
      Returns ([] ++ enc ++ [104; 101; 108; 108; 111]) /\
    1 <= len enc <= 5 /\
    forall post,
      valid_slice ([] ++ enc ++ [104; 101; 108; 108; 111] ++ post) ->
      ReadString ([] ++ enc ++ [104; 101; 108; 108; 111] ++ post) (len (@nil Z)) =
        Returns ([104; 101; 108; 108; 111], None,
                 len (@nil Z) + len enc + len [104; 101; 108; 108; 111]).
Proof.
  assert (H : len [104; 101; 108; 108; 111] < 2 ^ 32)
    by (unfold len; cbn [List.length Z.of_nat]; lia).
  split; [exact H|]. exact (string_round_trip [] [104; 101; 108; 108; 111] H).
Defined.

Lemma fixed_width_decode_encode_witness :
  exists v,
    ReadInt ([7] ++ [0xFF; 0xFE; 0xFD; 0xFC]) (len [7]) =
      Returns (v, None, len [7] + 4) /\
    is_int32 v /\
    WriteInt [7] v = [7] ++ [0xFF; 0xFE; 0xFD; 0xFC].
Proof.
  apply (fixed_width_decode_encode KInt [7] [0xFF; 0xFE; 0xFD; 0xFC]).
  - discriminate.
  - apply byte_slice_list. reflexivity.
  - reflexivity.
  - unfold valid_slice, len, max_int. cbn. lia.
Defined.

(** ** Length-prefixed bytes are strings *)

(** X18.  [PutLengthPrefixedBytes] does to a stream exactly what
    [PutString] does, and that is to replace the buffer by what
    [WriteString] makes of it. *)
Theorem length_prefixed_bytes_as_string (stream : Stream) (bytes : list Z) :
  PutLengthPrefixedBytes stream bytes = PutString stream bytes /\
  PutString stream bytes =
    (buffer <- WriteString (Buffer stream) bytes ;;
     Returns (tt, with_Buffer stream buffer)).
Proof.
  unfold PutLengthPrefixedBytes, PutUnsignedVarInt, put_with_loop, PutString,
    PutBytes, WriteString.
  destruct (WriteUnsignedVarInt (Buffer stream) (to_uint32 (len bytes)));
    cbn [bind]; split; reflexivity.
Qed.

(** ** The guarded getters on a stream without the pointer *)

(** X19.  On a stream whose [err] pointer is nil the guarded getters do
    read: [GetUnsignedVarInt] returns what [PutUnsignedVarInt] put and
    [GetString] what [PutString] put, moving the offset past it; at the end
    of the buffer both panic, in [SetError]. *)
Theorem nil_pointer_stream_varint_and_string :
  (forall buffer v,
      is_uint32 v ->
      exists enc,
        let s1 := mk_Stream (len buffer) (buffer ++ enc) None in
        PutUnsignedVarInt (mk_Stream (len buffer) buffer None) v =
          Returns (tt, s1) /\
        (valid_slice (buffer ++ enc) ->
         GetUnsignedVarInt s1 =
           Returns (v, mk_Stream (len buffer + len enc) (buffer ++ enc) None))) /\
  (forall buffer str,
      len str < 2 ^ 32 ->
      exists enc,
        let s1 := mk_Stream (len buffer) (buffer ++ enc ++ str) None in
        PutString (mk_Stream (len buffer) buffer None) str = Returns (tt, s1) /\
        (valid_slice (buffer ++ enc ++ str) ->
         GetString s1 =
           Returns (str, mk_Stream (len buffer + len enc + len str)
                           (buffer ++ enc ++ str) None))) /\
  (forall buffer,
      len buffer < max_int ->
      GetUnsignedVarInt (mk_Stream (len buffer) buffer None) = Panics /\
      GetString (mk_Stream (len buffer) buffer None) = Panics).
Proof.
  split; [|split].
  - intros buffer v Hv.
    destruct (ReadUnsignedVarInt_written buffer v Hv) as (enc & E & _ & R).
    exists enc. cbv zeta. unfold PutUnsignedVarInt, put_with_loop.
    cbn [Buffer]. rewrite E. cbn [bind]. split; [reflexivity|].
    intros HB. specialize (R []). rewrite !app_nil_r in R.
    unfold GetUnsignedVarInt, get_with. cbn [err_not_nil err Buffer Offset].
    rewrite (R HB). reflexivity.
  - intros buffer str Hl.
    destruct (ReadString_written buffer str Hl) as (enc & E & _ & R).
    exists enc. cbv zeta. unfold PutString. cbn [Buffer].
    unfold WriteString in E.
    destruct (WriteUnsignedVarInt buffer (to_uint32 (len str))) as [b| |];
      cbn [bind] in E; try discriminate E.
    inversion E as [Eb]. cbn [bind]. unfold with_Buffer. cbn [Offset Buffer err].
    rewrite Eb. split; [reflexivity|].
    intros HB. specialize (R []). rewrite !app_nil_r in R.
    unfold GetString, get_with. cbn [err_not_nil err Buffer Offset].
    rewrite (R HB). reflexivity.
  - intros buffer Hmax. pose proof (len_nonneg buffer) as Hn.
    assert (R : Read buffer (len buffer) 1 =
                Returns ([], Some InsufficientBytes, len buffer)).
    { rewrite Read_contract by lia.
      replace (len buffer <? len buffer + 1) with true
        by (symmetry; apply Z.ltb_lt; lia).
      reflexivity. }
    unfold GetUnsignedVarInt, GetString, get_with, ReadString,
      ReadUnsignedVarInt.
    cbn [err_not_nil err Buffer Offset ReadUnsignedVarInt_loop].
    rewrite R. split; reflexivity.
Qed.

Lemma nil_pointer_stream_varint_and_string_witness :
  (is_uint32 300 /\
   exists enc,
     let s1 := mk_Stream (len [9]) ([9] ++ enc) None in
     PutUnsignedVarInt (mk_Stream (len [9]) [9] None) 300 = Returns (tt, s1) /\
     (valid_slice ([9] ++ enc) ->
      GetUnsignedVarInt s1 =
        Returns (300, mk_Stream (len [9] + len enc) ([9] ++ enc) None))) /\
  (len [9] < max_int /\
   GetUnsignedVarInt (mk_Stream (len [9]) [9] None) = Panics /\
   GetString (mk_Stream (len [9]) [9] None) = Panics).
Proof.
  destruct nil_pointer_stream_varint_and_string as (A & _ & C).
  assert (H : is_uint32 300) by (unfold is_uint32; lia).
  assert (L : len [9] < max_int)
    by (unfold len, max_int; cbn [List.length Z.of_nat]; lia).
  split; (split; [assumption|]).
  - exact (A [9] 300 H).
  - exact (C [9] L).
Defined.

